(** * m3u2spotify: the matching engine and the playlist reconciler

    A shallow embedding of [src/m3u2spotify/spotify.py] (class [Spotify]):
    [clean_tags], [strong_match], [weak_match], [get_uri], [search_all],
    [update_uris], [update_playlist], [get_track_metadata] and
    [get_spotify_metadata], followed by the properties the specification
    states about them and by further properties read off the code.

    Modelling conventions.
    - A Python [str] is a [string]: a sequence of code points below 256.
    - A Python [float] (durations in seconds) is an exact rational [Q];
      rounding of binary floating point is not modelled.
    - A Python [int] is a [Z].
    - A raised exception is the [Raise] alternative of [result].
    - Dictionaries that the code mutates in place ([song]) are threaded
      through the functions as explicit state.
    - Network calls ([search], [create_playlist]) are oracles passed as
      arguments; printing is omitted. *)

From Stdlib Require Import String Ascii List Bool Arith ZArith QArith Qabs Lia.
Import ListNotations.

Open Scope string_scope.

(** ** Python string primitives *)

Module Py.

(** Membership of a code point in an inclusive range. *)
Definition in_range (lo hi : nat) (c : ascii) : bool :=
  (lo <=? nat_of_ascii c)%nat && (nat_of_ascii c <=? hi)%nat.

Definition is_upper (c : ascii) : bool := in_range 65 90 c.
Definition is_lower (c : ascii) : bool := in_range 97 122 c.
Definition is_digit (c : ascii) : bool := in_range 48 57 c.

(** The character class [[A-Za-z0-9']]. *)
Definition is_word (c : ascii) : bool :=
  is_upper c || is_lower c || is_digit c || Ascii.eqb c "'".

(** The character class [[\(\[]]. *)
Definition is_open (c : ascii) : bool := Ascii.eqb c "(" || Ascii.eqb c "[".

(** The character class [[\)\]]]. *)
Definition is_close (c : ascii) : bool := Ascii.eqb c ")" || Ascii.eqb c "]".

(** The one character that [.] does not match. *)
Definition is_newline (c : ascii) : bool := (nat_of_ascii c =? 10)%nat.

(** [str.isspace] on code points below 256. *)
Definition is_space (c : ascii) : bool :=
  in_range 9 13 c || in_range 28 32 c
  || (nat_of_ascii c =? 133)%nat || (nat_of_ascii c =? 160)%nat.

(** [str.lower] on one code point below 256: A-Z, and the Latin-1
    capitals U+00C0..U+00DE except the multiplication sign U+00D7. *)
Definition lower_char (c : ascii) : ascii :=
  if is_upper c
     || (in_range 192 222 c && negb (nat_of_ascii c =? 215)%nat)
  then ascii_of_nat (nat_of_ascii c + 32)
  else c.

(** [s.lower()] *)
Fixpoint lower (s : string) : string :=
  match s with
  | EmptyString => EmptyString
  | String c r => String (lower_char c) (lower r)
  end.

(** [s.startswith(p)] *)
Fixpoint startswith (p s : string) : bool :=
  match p, s with
  | EmptyString, _ => true
  | String _ _, EmptyString => false
  | String a p', String b s' => Ascii.eqb a b && startswith p' s'
  end.

(** [p in s] for two strings: [p] occurs as a substring of [s]. *)
Fixpoint contains (p s : string) : bool :=
  startswith p s
  || match s with
     | EmptyString => false
     | String _ r => contains p r
     end.

(** [s.replace(old, new)] for a non-empty [old] (every use in the source
    passes a non-empty literal): occurrences are replaced left to right
    without overlap; [skip] counts the characters of a matched
    occurrence that are still to be dropped. *)
Fixpoint replace_go (old new : string) (skip : nat) (s : string) : string :=
  match s with
  | EmptyString => EmptyString
  | String c r =>
      match skip with
      | S k => replace_go old new k r
      | O =>
          if startswith old s
          then new ++ replace_go old new (String.length old - 1) r
          else String c (replace_go old new 0 r)
      end
  end.

Definition replace (old new s : string) : string := replace_go old new 0 s.

(** [s.split(sep)[0]] for a non-empty [sep]: the part of [s] before the
    first occurrence of [sep], all of [s] when there is none. *)
Fixpoint split_head (sep s : string) : string :=
  match s with
  | EmptyString => EmptyString
  | String c r => if startswith sep s then EmptyString
                  else String c (split_head sep r)
  end.

(** [s.split(sep)] for a separator of one character. *)
Fixpoint split_char (sep : ascii) (s : string) : list string :=
  match s with
  | EmptyString => [EmptyString]
  | String c r =>
      if Ascii.eqb c sep then EmptyString :: split_char sep r
      else match split_char sep r with
           | w :: ws => String c w :: ws
           | [] => [String c EmptyString]
           end
  end.

(** [s.lstrip()], [s.rstrip()] and [s.strip()] *)
Fixpoint lstrip (s : string) : string :=
  match s with
  | EmptyString => EmptyString
  | String c r => if is_space c then lstrip r else s
  end.

Fixpoint rstrip (s : string) : string :=
  match s with
  | EmptyString => EmptyString
  | String c r =>
      match rstrip r with
      | EmptyString => if is_space c then EmptyString else String c EmptyString
      | r' => String c r'
      end
  end.

Definition strip (s : string) : string := rstrip (lstrip s).

(** [sep.join(l)] *)
Fixpoint join (sep : string) (l : list string) : string :=
  match l with
  | [] => EmptyString
  | [x] => x
  | x :: rest => x ++ sep ++ join sep rest
  end.

(** [l[a:b]] for [0 <= a <= b]. *)
Definition slice {A : Type} (a b : nat) (l : list A) : list A :=
  firstn (b - a) (skipn a l).

(** Distance to the first closing bracket, when no newline comes
    before it: how far the lazy [.*?] of the bracket pattern runs. *)
Fixpoint close_dist (s : string) : option nat :=
  match s with
  | EmptyString => None
  | String c r =>
      if is_close c then Some O
      else if is_newline c then None
      else option_map S (close_dist r)
  end.

(** [re.sub("[\(\[].*?[\)\]]", "", s)]: every span from an opening
    bracket to the nearest closing bracket on the same line is removed,
    scanning left to right; an opening bracket that is not closed before
    the end of its line is kept. *)
Fixpoint unbracket_go (skip : nat) (s : string) : string :=
  match s with
  | EmptyString => EmptyString
  | String c r =>
      match skip with
      | S k => unbracket_go k r
      | O =>
          if is_open c then
            match close_dist r with
            | Some n => unbracket_go (S n) r
            | None => String c (unbracket_go 0 r)
            end
          else String c (unbracket_go 0 r)
      end
  end.

Definition unbracket (s : string) : string := unbracket_go 0 s.

(** [re.sub("[^A-Za-z0-9']+", ' ', s)]: every maximal run of characters
    outside the class becomes one space; [in_run] tells that the space
    of the current run was already written. *)
Fixpoint collapse_go (in_run : bool) (s : string) : string :=
  match s with
  | EmptyString => EmptyString
  | String c r =>
      if is_word c then String c (collapse_go false r)
      else if in_run then collapse_go true r
      else String " " (collapse_go true r)
  end.

Definition collapse (s : string) : string := collapse_go false s.

(** [re.sub('[^0-9]', '', s)] *)
Fixpoint digits_only (s : string) : string :=
  match s with
  | EmptyString => EmptyString
  | String c r => if is_digit c then String c (digits_only r)
                  else digits_only r
  end.

(** [s[:n]] *)
Fixpoint take (n : nat) (s : string) : string :=
  match n, s with
  | S k, String c r => String c (take k r)
  | _, _ => EmptyString
  end.

(** Value of a string of decimal digits read left to right. *)
Fixpoint digits_value (acc : Z) (s : string) : Z :=
  match s with
  | EmptyString => acc
  | String c r => digits_value (10 * acc + (Z.of_nat (nat_of_ascii c) - 48)) r
  end.

End Py.

(** ** Exceptions *)

Inductive exn : Set :=
| ValueError          (* [max()] of an empty sequence, [int('')] *)
| ZeroDivisionError.  (* [n // 0] *)

Inductive result (A : Type) : Type :=
| Ok (a : A)
| Raise (e : exn).
Arguments Ok {A} a.
Arguments Raise {A} e.

Definition bind {A B : Type} (r : result A) (k : A -> result B) : result B :=
  match r with
  | Ok a => k a
  | Raise e => Raise e
  end.

Notation "x <- r ;; k" := (bind r (fun x => k))
  (at level 61, r at next level, right associativity).

(** [int(s)] for a string of ASCII digits; [int('')] raises. *)
Definition int_of_digits (s : string) : result Z :=
  match s with
  | EmptyString => Raise ValueError
  | _ => Ok (Py.digits_value 0 s)
  end.

(** ** Data model *)

(** The three states of the ['uri'] key of a local song: key absent
    (never searched), present with value [None] (searched, not found),
    present with an identifier. *)
Inductive uri_state : Set :=
| Absent
| Null
| Uri (u : string).

(** ['uri' in song] *)
Definition has_uri (u : uri_state) : bool :=
  match u with Absent => false | _ => true end.

(** [song.get('uri', None)] *)
Definition uri_get (u : uri_state) : option string :=
  match u with Uri s => Some s | _ => None end.

(** A local song: the dictionary built by the tag reader, with the keys
    the matcher and the reconciler read or write. *)
Record song : Type := {
  song_position : Z;
  song_title : string;
  song_artist : string;
  song_album : string;
  song_year : Z;
  song_length : Q;
  song_uri : uri_state;
  song_old_uri : option string;
  song_playlist : option string
}.

(** [song['uri'] = u] *)
Definition set_uri (sg : song) (u : uri_state) : song :=
  {| song_position := song_position sg; song_title := song_title sg;
     song_artist := song_artist sg; song_album := song_album sg;
     song_year := song_year sg; song_length := song_length sg;
     song_uri := u;
     song_old_uri := song_old_uri sg; song_playlist := song_playlist sg |}.

(** An artist object of a search result: the value under ['name'] and the
    other keys of the JSON object. *)
Record artist_obj : Type := {
  artist_name : string;
  artist_other_keys : list string
}.

(** [word in artist_] for a dictionary [artist_]: a test on its keys. *)
Definition has_key (a : artist_obj) (word : string) : bool :=
  String.eqb word "name" || existsb (String.eqb word) (artist_other_keys a).

Record album_obj : Type := {
  album_name : string;
  album_release_date : string
}.

(** A search result ("candidate"): a track object of the catalog. *)
Record track : Type := {
  track_name : string;
  track_artists : list artist_obj;
  track_album : album_obj;
  track_duration_ms : Z;
  track_uri : string
}.

(** A track of a remote playlist, as [get_track_metadata] flattens it. *)
Record remote_track : Type := {
  remote_title : string;
  remote_artist : string;
  remote_album : string;
  remote_uri : string
}.

(** [spotify[name]]: the remote playlist's url and its tracks. *)
Record remote_playlist : Type := {
  playlist_url : string;
  playlist_tracks : list remote_track
}.

(** Python's [dict[name]] and [name in dict] on an insertion-ordered
    dictionary kept as an association list with distinct keys. *)
Fixpoint lookup {A : Type} (name : string) (d : list (string * A)) : option A :=
  match d with
  | [] => None
  | (k, v) :: rest => if String.eqb name k then Some v else lookup name rest
  end.

(** ** clean_tags *)

(** The [tags] argument: the string ['all'] or ['title'], or a list of
    tag names. [x in tags] is a substring test on a string and an element
    test on a list. *)
Inductive tags_arg : Type :=
| TagsStr (s : string)
| TagsList (l : list string).

Definition tag_in (x : string) (tags : tags_arg) : bool :=
  match tags with
  | TagsStr s => Py.contains x s
  | TagsList l => existsb (String.eqb x) l
  end.

(** The three keys [clean_tags] reads from its dictionary argument. *)
Record tag_dict : Type := {
  tag_title : string;
  tag_artist : string;
  tag_album : string
}.

Definition song_tags (sg : song) : tag_dict :=
  {| tag_title := song_title sg; tag_artist := song_artist sg;
     tag_album := song_album sg |}.

Definition remote_tags (t : remote_track) : tag_dict :=
  {| tag_title := remote_title t; tag_artist := remote_artist t;
     tag_album := remote_album t |}.

(** The body of [if 'title' in tags]. *)
Definition clean_title (title : string) : string :=
  let title := Py.replace "the " " " (Py.replace "part " " " (Py.unbracket title)) in
  let title := Py.split_head " / " (Py.split_head "ft." (Py.split_head "feat."
                 (Py.replace "featuring" "" (Py.lower title)))) in
  Py.strip (Py.collapse title).

(** The body of [if 'artist' in tags]. *)
Definition clean_artist (artist : string) : string :=
  let artist := Py.replace "the " " " (Py.unbracket artist) in
  let artist := Py.split_head " ft." (Py.split_head " feat."
                  (Py.replace " featuring" "" (Py.lower artist))) in
  let artist := Py.split_head " vs" (Py.split_head " and " (Py.split_head "&" artist)) in
  Py.strip (Py.collapse artist).

(** The body of [if 'album' in tags]. *)
Definition clean_album (album : string) : string :=
  let album := Py.replace "ep" "" (Py.lower (Py.split_head "-" album)) in
  let album := Py.replace "the " " " (Py.unbracket album) in
  Py.strip (Py.collapse album).

Definition clean_tags (d : tag_dict) (tags : tags_arg)
  : string * string * string :=
  let tags := if tag_in "all" tags
              then TagsList ["title"; "artist"; "album"] else tags in
  let title := tag_title d in
  let artist := tag_artist d in
  let album := tag_album d in
  let title := if tag_in "title" tags then clean_title title else title in
  let artist := if tag_in "artist" tags then clean_artist artist else artist in
  let album := if tag_in "album" tags then clean_album album else album in
  (title, artist, album).

(** [all([word in text for word in key.split(' ')])] *)
Definition all_words_in (key text : string) : bool :=
  forallb (fun word => Py.contains word text) (Py.split_char " " key).

(** ** The match scorer *)

Definition karaoke_words : list string := ["karaoke"; "backing"].

(** [abs(track['duration_ms'] / 1000 - song['length'])] *)
Definition length_diff (sg : song) (t : track) : Q :=
  Qabs (inject_Z (track_duration_ms t) / 1000 - song_length sg).

(** [a < b] on durations. *)
Definition Qlt_bool (a b : Q) : bool := negb (Qle_bool b a).

(** [int(re.sub('[^0-9]', '', track['album']['release_date'])[:4])] *)
Definition release_year (t : track) : result Z :=
  int_of_digits (Py.take 4 (Py.digits_only (album_release_date (track_album t)))).

(** [all(word not in track['album']['name'].lower() for word in [...])] *)
Definition album_not_karaoke (t : track) : bool :=
  forallb (fun word => negb (Py.contains word (Py.lower (album_name (track_album t)))))
          karaoke_words.

(** [all(word not in artist_ for word in ['karaoke', 'backing'])]:
    [artist_] is the artist dictionary itself, so this tests its keys. *)
Definition artist_not_karaoke (a : artist_obj) : bool :=
  forallb (fun word => negb (has_key a word)) karaoke_words.

(** The dictionary [d] built for one artist and its cleaned name. *)
Definition cleaned_artist_name (a : artist_obj) : string :=
  let d := {| tag_title := ""; tag_artist := artist_name a; tag_album := "" |} in
  let '(_, artist_name, _) := clean_tags d (TagsList ["title"; "artist"]) in
  artist_name.

(** The artist loop of [strong_match]; the result is [not_karaoke]. *)
Fixpoint strong_artists (not_karaoke : bool) (l : list artist_obj) : bool :=
  match l with
  | [] => not_karaoke
  | artist_ :: rest =>
      let artist_name := cleaned_artist_name artist_ in
      let not_karaoke := not_karaoke && artist_not_karaoke artist_ in
      if negb not_karaoke then not_karaoke
      else strong_artists not_karaoke rest
  end.

Definition time_match (sg : song) (t : track) : bool :=
  Qle_bool (length_diff sg t) 20.

Definition album_match (sg : song) (t : track) : bool :=
  Py.contains (Py.lower (song_album sg)) (Py.lower (album_name (track_album t))).

(** [strong_match(song, tracks)]: [Ok (Some song')] when the song is
    returned with its uri set, [Ok None] when [None] is returned and the
    song is left as it was. *)
Fixpoint strong_match (sg : song) (tracks : list track) : result (option song) :=
  match tracks with
  | [] => Ok None
  | t :: rest =>
      let time_match := time_match sg t in
      let album_match := album_match sg t in
      year <- release_year t ;;
      let year_match := Z.eqb (song_year sg) year in
      let not_karaoke := strong_artists (album_not_karaoke t) (track_artists t) in
      if (time_match || album_match || year_match) && not_karaoke
      then Ok (Some (set_uri sg (Uri (track_uri t))))
      else strong_match sg rest
  end.

(** The artist loop of [weak_match]; the result is
    [(artist_match, not_karaoke)]. *)
Fixpoint weak_artists (artist : string) (artist_match not_karaoke : bool)
         (l : list artist_obj) : bool * bool :=
  match l with
  | [] => (artist_match, not_karaoke)
  | artist_ :: rest =>
      let artist_name := cleaned_artist_name artist_ in
      let artist_match := all_words_in artist artist_name in
      let not_karaoke := not_karaoke && artist_not_karaoke artist_ in
      if artist_match || negb not_karaoke then (artist_match, not_karaoke)
      else weak_artists artist artist_match not_karaoke rest
  end.

(** [title_match] of [weak_match] for one candidate. *)
Definition title_match (title : string) (t : track) : bool :=
  let d := {| tag_title := track_name t; tag_artist := ""; tag_album := "" |} in
  let '(track_name, _, _) := clean_tags d (TagsList ["title"; "artist"]) in
  all_words_in title track_name.

(** The flags [(artist_match, not_karaoke)] of one candidate. *)
Definition weak_flags (artist : string) (t : track) : bool * bool :=
  weak_artists artist true (album_not_karaoke t) (track_artists t).

(** The loop of [weak_match], with the running minimum and the song. *)
Fixpoint weak_match_loop (title artist : string) (tracks : list track)
         (min_length_diff : Q) (sg : song) : song :=
  match tracks with
  | [] => sg
  | t :: rest =>
      let title_match := title_match title t in
      let '(artist_match, not_karaoke) := weak_flags artist t in
      let length_diff := length_diff sg t in
      if (artist_match || title_match)
         && Qlt_bool length_diff min_length_diff && not_karaoke
      then weak_match_loop title artist rest length_diff
             (set_uri sg (Uri (track_uri t)))
      else weak_match_loop title artist rest min_length_diff sg
  end.

(** [weak_match(song, tracks, title, artist)]: the song after the call and
    the returned [song.get('uri', None)]. *)
Definition weak_match (sg : song) (tracks : list track) (title artist : string)
  : song * option string :=
  let sg' := weak_match_loop title artist tracks 600 sg in
  (sg', uri_get (song_uri sg')).

(** ** The query builder and the resolution order *)

Section Catalog.

(** The catalog search: a state [W] of the remote service, and the
    answer and next state for each query. *)
Variable W : Type.
Variable search : string -> W -> list track * W.

(** [len(l) == 0] *)
Definition is_empty {A : Type} (l : list A) : bool :=
  match l with [] => true | _ => false end.

(** The first lines of [get_uri]: the queries that give [results]. *)
Definition first_results (title_clean artist_clean album_clean : string) (w : W)
  : list track * W :=
  let '(results, w) := search (title_clean ++ " " ++ artist_clean) w in
  let '(results, w) :=
    if is_empty results && negb (String.eqb (Py.take 9 album_clean) "downloads")
    then search (title_clean ++ " " ++ album_clean) w
    else (results, w) in
  if is_empty results then search title_clean w else (results, w).

Definition get_uri (sg : song) (w : W) : result (song * W) :=
  let '(title_clean, artist_clean, album_clean) :=
    clean_tags (song_tags sg) (TagsStr "all") in
  let '(results, w) := first_results title_clean artist_clean album_clean w in
  match_ <- strong_match sg results ;;
  match match_ with
  | Some sg' => Ok (sg', w)
  | None =>
      let '(results_title, w) := search title_clean w in
      match_ <- strong_match sg results_title ;;
      match match_ with
      | Some sg' => Ok (sg', w)
      | None =>
          let '(sg, match_) := weak_match sg results title_clean artist_clean in
          match match_ with
          | Some _ => Ok (sg, w)
          | None =>
              let '(sg, _) :=
                weak_match sg results_title title_clean artist_clean in
              Ok (sg, w)
          end
      end
  end.

(** [[self.get_uri(song, authorisation) for song in search_songs]] *)
Fixpoint get_uris (songs : list song) (w : W) : result (list song * W) :=
  match songs with
  | [] => Ok ([], w)
  | sg :: rest =>
      r <- get_uri sg w ;;
      rs <- get_uris rest (snd r) ;;
      Ok (fst r :: fst rs, snd rs)
  end.

(** [track['uri'] = None] on a song of [missing[name]]. The songs of
    [missing[name]] are the very objects listed in [results[name]], so
    the assignment shows in both. *)
Definition mark_missing (sg : song) : song :=
  if has_uri (song_uri sg) then sg else set_uri sg Null.

Fixpoint search_all_loop (m3u_playlists : list (string * list song)) (w : W)
  : result (list (string * list song) * list (string * list song) * W) :=
  match m3u_playlists with
  | [] => Ok ([], [], w)
  | (name, songs) :: rest =>
      let search_songs := filter (fun sg => negb (has_uri (song_uri sg))) songs in
      if is_empty search_songs then search_all_loop rest w
      else
        r <- get_uris search_songs w ;;
        let missing := filter (fun sg => negb (has_uri (song_uri sg))) (fst r) in
        out <- search_all_loop rest (snd r) ;;
        let '(results_rest, missing_rest, w') := out in
        Ok ((name, map mark_missing (fst r)) :: results_rest,
            (name, map mark_missing missing) :: missing_rest, w')
  end.

(** [search_all(m3u_playlists, authorisation)]: the returned
    [(results, missing)] as they stand when the call ends. [max] of the
    keys of an empty dictionary raises. *)
Definition search_all (m3u_playlists : list (string * list song)) (w : W)
  : result (list (string * list song) * list (string * list song) * W) :=
  if is_empty m3u_playlists then Raise ValueError
  else search_all_loop m3u_playlists w.

End Catalog.

(** ** The sync reconciler *)

(** Equality of two values that are a string or [None]. *)
Definition opt_eqb (a b : option string) : bool :=
  match a, b with
  | Some x, Some y => String.eqb x y
  | None, None => true
  | _, _ => false
  end.

(** [x in l] for a list of such values. *)
Definition opt_in (x : option string) (l : list (option string)) : bool :=
  existsb (opt_eqb x) l.

(** [[*[track['uri'] for track in spotify[name]['tracks']], None]] *)
Definition spotify_uris_of (pl : remote_playlist) : list (option string) :=
  map (fun t => Some (remote_uri t)) (playlist_tracks pl) ++ [None].

(** [[song['uri'] for song in songs if 'uri' in song]] *)
Definition m3u_uris_of (songs : list song) : list (option string) :=
  map (fun sg => uri_get (song_uri sg))
      (filter (fun sg => has_uri (song_uri sg)) songs).

(** The three assignments made to a re-matched song. *)
Definition reassign (name : string) (sg : song) (t : remote_track) : song :=
  {| song_position := song_position sg; song_title := song_title sg;
     song_artist := song_artist sg; song_album := song_album sg;
     song_year := song_year sg; song_length := song_length sg;
     song_uri := Uri (remote_uri t);
     song_old_uri := uri_get (song_uri sg);
     song_playlist := Some name |}.

(** The loop over the remote tracks for one stale song: the song as
    reassigned at the first track that matches, if any. *)
Fixpoint rematch (name title : string) (m3u_uris : list (option string))
         (sg : song) (tracks : list remote_track) : option song :=
  match tracks with
  | [] => None
  | t :: rest =>
      let '(track_title, _, _) := clean_tags (remote_tags t) (TagsStr "title") in
      let title_match := all_words_in title track_title in
      if title_match && negb (opt_in (Some (remote_uri t)) m3u_uris)
      then Some (reassign name sg t)
      else rematch name title m3u_uris sg rest
  end.

(** The loop over the songs of one playlist: the songs after the loop
    and the songs appended to [updated_uris], in order. *)
Fixpoint update_songs (name : string) (pl : remote_playlist)
         (m3u_uris : list (option string)) (songs : list song)
  : list song * list song :=
  match songs with
  | [] => ([], [])
  | sg :: rest =>
      let '(rest', updated) := update_songs name pl m3u_uris rest in
      if has_uri (song_uri sg)
         && negb (opt_in (uri_get (song_uri sg)) (spotify_uris_of pl))
      then
        let '(title, _, _) := clean_tags (song_tags sg) (TagsStr "title") in
        match rematch name title m3u_uris sg (playlist_tracks pl) with
        | Some sg' => (sg' :: rest', sg' :: updated)
        | None => (sg :: rest', updated)
        end
      else (sg :: rest', updated)
  end.

Fixpoint update_uris_loop (m3u : list (string * list song))
         (spotify : list (string * remote_playlist))
  : list (string * list song) * list song :=
  match m3u with
  | [] => ([], [])
  | (name, songs) :: rest =>
      let '(rest', updated_rest) := update_uris_loop rest spotify in
      match lookup name spotify with
      | Some pl =>
          let m3u_uris := m3u_uris_of songs in
          let '(songs', updated) := update_songs name pl m3u_uris songs in
          ((name, songs') :: rest', (updated ++ updated_rest)%list)
      | None => ((name, songs) :: rest', updated_rest)
      end
  end.

(** [update_uris(m3u, spotify)]: the local playlists after the call and
    the list returned under ['updated']. [max] of the keys of an empty
    [spotify] raises. *)
Definition update_uris (m3u : list (string * list song))
           (spotify : list (string * remote_playlist))
  : result (list (string * list song) * list song) :=
  if is_empty spotify then Raise ValueError
  else Ok (update_uris_loop m3u spotify).

(** What [update_playlist] does for one playlist: the name, whether the
    remote playlist was created, the url written to, the identifiers to
    add, and the ['uris'] parameter of each POST, in order. *)
Record playlist_update : Type := {
  update_name : string;
  update_created : bool;
  update_url : string;
  update_uri_list : list string;
  update_posts : list string
}.

(** [[uri_list[limit * i: limit * (i + 1)] for i in range(len(uri_list) // limit + 1)]] *)
Definition chunks (limit : nat) (uri_list : list string) : list (list string) :=
  map (fun i => Py.slice (limit * i) (limit * (i + 1)) uri_list)
      (seq 0 (List.length uri_list / limit + 1)).

(** [[song['uri'] for song in songs if keep(song)]] where every kept song
    holds an identifier under ['uri']. *)
Definition uris_where (keep : song -> bool) (songs : list song) : list string :=
  flat_map (fun sg =>
              if keep sg
              then match uri_get (song_uri sg) with
                   | Some u => [u]
                   | None => []
                   end
              else [])
           songs.

Section Writer.

(** [create_playlist]: the url of the playlist the service creates for
    a name. *)
Variable create_playlist : string -> string.

Definition update_one (spotify : list (string * remote_playlist))
           (limit : nat) (name : string) (songs : list song)
  : result playlist_update :=
  let '(created, url, uri_list) :=
    match lookup name spotify with
    | Some pl =>
        let spotify_uris := spotify_uris_of pl in
        (false, playlist_url pl,
         uris_where (fun sg => has_uri (song_uri sg)
                               && negb (opt_in (uri_get (song_uri sg)) spotify_uris))
                    songs)
    | None =>
        (true, create_playlist name,
         uris_where (fun sg => has_uri (song_uri sg)
                               && negb (opt_eqb (uri_get (song_uri sg)) None))
                    songs)
    end in
  if (limit =? 0)%nat then Raise ZeroDivisionError
  else Ok {| update_name := name; update_created := created;
             update_url := url; update_uri_list := uri_list;
             update_posts := map (Py.join ",") (chunks limit uri_list) |}.

Fixpoint update_playlist_loop (items : list (string * list song))
         (spotify : list (string * remote_playlist)) (limit : nat)
  : result (list playlist_update) :=
  match items with
  | [] => Ok []
  | (name, songs) :: rest =>
      u <- update_one spotify limit name songs ;;
      us <- update_playlist_loop rest spotify limit ;;
      Ok (u :: us)
  end.

(** [update_playlist(m3u, spotify, authorisation, limit)]: the playlists
    acted on, in the order they are acted on. The loop runs over
    [reversed(m3u.items())]; [max] of the keys of an empty [spotify]
    raises before it. *)
Definition update_playlist (m3u : list (string * list song))
           (spotify : list (string * remote_playlist)) (limit : nat)
  : result (list playlist_update) :=
  if is_empty spotify then Raise ValueError
  else update_playlist_loop (rev m3u) spotify limit.

End Writer.

(** The default [limit=50]. *)
Definition default_limit : nat := 50.

(** ** Predicates used to state the properties *)

(** The karaoke guard of Phase 1 as the code evaluates it. *)
Definition karaoke_guard (t : track) : bool :=
  strong_artists (album_not_karaoke t) (track_artists t).

(** Phase 1 accepts candidate [t]: its year parses, the guard passes and
    one of the three signals holds. *)
Definition strong_qualifies (sg : song) (t : track) : Prop :=
  exists year, release_year t = Ok year
    /\ karaoke_guard t = true
    /\ (time_match sg t = true \/ album_match sg t = true \/ song_year sg = year).

(** Phase 1 passes over candidate [t] without raising. *)
Definition strong_rejects (sg : song) (t : track) : Prop :=
  exists year, release_year t = Ok year
    /\ (karaoke_guard t = false
        \/ (time_match sg t = false /\ album_match sg t = false
            /\ song_year sg <> year)).

(** The part of Phase 2's acceptance test that does not depend on the
    running minimum: [(artist_match or title_match)] and [not_karaoke]. *)
Definition weak_signals (title artist : string) (t : track) : bool :=
  (fst (weak_flags artist t) || title_match title t) && snd (weak_flags artist t).

(** A qualifying candidate of Phase 2: the signals hold and the duration
    difference is below the initial running minimum of 600 seconds. *)
Definition weak_qualifies (sg : song) (title artist : string) (t : track) : Prop :=
  weak_signals title artist t = true /\ (length_diff sg t < 600)%Q.

(** The first listed artist trips the guard in Phase 2: after the first
    iteration of the artist loop [not_karaoke] is false. *)
Definition first_artist_trips (t : track) : Prop :=
  match track_artists t with
  | [] => False
  | artist_ :: _ => album_not_karaoke t && artist_not_karaoke artist_ = false
  end.

(** The names of the playlists [update_playlist] acted on, in order. *)
Definition names_acted_on (l : list playlist_update) : list string :=
  map update_name l.

(** The identifiers newly assigned by [update_uris]. *)
Definition new_uris (updated : list song) : list (option string) :=
  map (fun sg => uri_get (song_uri sg)) updated.

(** What [search_all] returns for one playlist of one song that it
    resolves to [None]. *)
Definition unresolved (name : string) (sg : song)
  : list (string * list song) * list (string * list song) :=
  ([(name, [set_uri sg Null])], [(name, [set_uri sg Null])]).

(** Candidate [t] gives no signal besides the title: Phase 1 passes over
    it, and in Phase 2 its guard fails or it is 600 s or more away. *)
Definition no_other_signal (sg : song) (t : track) : Prop :=
  strong_rejects sg t
  /\ (snd (weak_flags (clean_artist (song_artist sg)) t) = false
      \/ (600 <= length_diff sg t)%Q).

(** *** Keys of the normalizer *)

(** The field kinds of the specification's [normalize(text, field_kind)]. *)
Inductive field_kind : Set := Title | Artist | Album.

(** [normalize(text, field_kind)]: [clean_tags] asked for the one tag, on
    a dictionary that holds [text] under it. *)
Definition normalize (text : string) (k : field_kind) : string :=
  match k with
  | Title =>
      let '(title, _, _) :=
        clean_tags {| tag_title := text; tag_artist := ""; tag_album := "" |}
                   (TagsStr "title") in title
  | Artist =>
      let '(_, artist, _) :=
        clean_tags {| tag_title := ""; tag_artist := text; tag_album := "" |}
                   (TagsStr "artist") in artist
  | Album =>
      let '(_, _, album) :=
        clean_tags {| tag_title := ""; tag_artist := ""; tag_album := text |}
                   (TagsStr "album") in album
  end.

(** The substrings that the normalizer of a kind removes or cuts at and
    that can occur in a key. *)
Definition dropped (k : field_kind) : list string :=
  match k with
  | Title => ["part "; "the "; "featuring"]
  | Artist => ["the "; " featuring"; " and "; " vs"]
  | Album => ["ep"; "the "]
  end.

(** No dropped substring occurs in [key]. *)
Definition free_of_dropped (k : field_kind) (key : string) : bool :=
  forallb (fun p => negb (Py.contains p key)) (dropped k).

(** Every character of [s] satisfies [p]. *)
Fixpoint all_chars (p : ascii -> bool) (s : string) : bool :=
  match s with
  | EmptyString => true
  | String c r => p c && all_chars p r
  end.

(** The characters of a key: lower-case letters, digits, the apostrophe
    and the space. *)
Definition key_char (c : ascii) : bool :=
  (Py.is_word c && negb (Py.is_upper c)) || Ascii.eqb c " ".

Definition not_upper (c : ascii) : bool := negb (Py.is_upper c).

(** No two spaces in a row, every other character in the class;
    [after_space] tells that the previous character was a space (or that
    the string starts here and must not start with one). *)
Fixpoint single_spaced (after_space : bool) (s : string) : bool :=
  match s with
  | EmptyString => true
  | String c r =>
      if Py.is_word c then single_spaced false r
      else Ascii.eqb c " " && negb after_space && single_spaced true r
  end.

(** [s] is empty or starts with a character that is not white space. *)
Definition no_lead (s : string) : bool :=
  match s with
  | EmptyString => true
  | String c _ => negb (Py.is_space c)
  end.

(** The shape of a key: the characters of a key, single spaces, and
    nothing for [strip] to remove. *)
Definition is_key (s : string) : Prop :=
  all_chars key_char s = true
  /\ single_spaced false s = true
  /\ Py.strip s = s.

(** ** Sample data *)

Definition sample_song : song :=
  {| song_position := 0; song_title := "Song (Live)"; song_artist := "Artist A";
     song_album := "downloads"; song_year := 2020; song_length := 200;
     song_uri := Absent; song_old_uri := None; song_playlist := None |}.

(** The keys of an artist object of the catalog, besides ['name']. *)
Definition api_artist_keys : list string :=
  ["external_urls"; "href"; "id"; "type"; "uri"].

Definition api_artist (name : string) : artist_obj :=
  {| artist_name := name; artist_other_keys := api_artist_keys |}.

Definition mk_track (name artist album date : string) (ms : Z) (uri : string)
  : track :=
  {| track_name := name; track_artists := [api_artist artist];
     track_album := {| album_name := album; album_release_date := date |};
     track_duration_ms := ms; track_uri := uri |}.

Definition karaoke_track : track :=
  mk_track "Song" "Artist A" "Karaoke Hits" "2020-01-01" 200000 "spotify:track:k".

Definition timed_track : track :=
  mk_track "Song" "Artist A" "Album X" "1999" 205000 "spotify:track:t".

Definition five_track : track :=
  mk_track "Song" "Somebody" "Album X" "1999" 205000 "spotify:track:five".

Definition two_track : track :=
  mk_track "Song - Remastered" "Somebody" "Album Y" "1998" 198000 "spotify:track:two".

Definition karaoke_band_track : track :=
  mk_track "Song" "Karaoke Band" "Karaoke Hits" "2020" 200000 "spotify:track:kb".

Definition sample_remote : list (string * remote_playlist) :=
  [("Rock", {| playlist_url := "https://api.spotify.com/v1/playlists/1/tracks";
               playlist_tracks := [] |})].

Definition new_url (name : string) : string :=
  "https://api.spotify.com/v1/playlists/new/tracks".

Definition resolved_song (n : nat) : song :=
  set_uri sample_song (Uri ("spotify:track:" ++ String (ascii_of_nat n) "")).

Definition sample_local_120 : list (string * list song) :=
  [("Jazz", map resolved_song (seq 0 120))].

Definition sample_local_two : list (string * list song) :=
  [("Rock", [sample_song]); ("Jazz", [sample_song])].

Definition karaoke_stars_track : track :=
  mk_track "Song" "Karaoke Stars" "Album X" "2020" 205000 "spotify:track:ks".

Definition backing_band_track : track :=
  mk_track "Song" "The Backing Band" "Album X" "1990" 300000 "spotify:track:bb".

Definition stale_song (position : Z) (uri : string) : song :=
  {| song_position := position; song_title := "Song"; song_artist := "Artist A";
     song_album := "Album X"; song_year := 2020; song_length := 200;
     song_uri := Uri uri; song_old_uri := None; song_playlist := None |}.

Definition stale_local : list (string * list song) :=
  [("Rock", [stale_song 0 "spotify:track:old1"; stale_song 1 "spotify:track:old2"])].

Definition fresh_remote : list (string * remote_playlist) :=
  [("Rock", {| playlist_url := "https://api.spotify.com/v1/playlists/1/tracks";
               playlist_tracks :=
                 [{| remote_title := "Song"; remote_artist := "Artist A";
                     remote_album := "Album X";
                     remote_uri := "spotify:track:new" |}] |})].

Definition far_track : track :=
  mk_track "Other" "Nobody" "Else" "1990" 900000 "spotify:track:far".

Definition late_track : track :=
  mk_track "Song" "Somebody" "Album" "1990" 300000 "spotify:track:late".

(** A catalog without state that answers two queries. *)
Definition sample_search (query : string) (w : unit) : list track * unit :=
  if String.eqb query "song artist a" then ([far_track], w)
  else if String.eqb query "song" then ([late_track], w)
  else ([], w).

Definition garbage_song : song :=
  {| song_position := 0; song_title := "???"; song_artist := "Artist A";
     song_album := "downloads"; song_year := 2020; song_length := 200;
     song_uri := Absent; song_old_uri := None; song_playlist := None |}.

Definition same_length_track : track :=
  mk_track "Other" "Nobody" "Else" "1990" 200000 "spotify:track:same".

Definition constant_search (l : list track) (query : string) (w : unit)
  : list track * unit := (l, w).

Definition karaoke_album_track : track :=
  mk_track "Other" "Nobody" "Karaoke Party" "1990" 200000 "spotify:track:kp".

(** ** Further definitions: predicates, the reading of the remote
    playlists, more sample data *)

Definition nonword (c : ascii) : bool := negb (Py.is_word c).

(** [song['title'] = title; song['artist'] = artist] *)
Definition retitle (sg : song) (title artist : string) : song :=
  {| song_position := song_position sg; song_title := title;
     song_artist := artist; song_album := song_album sg;
     song_year := song_year sg; song_length := song_length sg;
     song_uri := song_uri sg;
     song_old_uri := song_old_uri sg; song_playlist := song_playlist sg |}.

Definition undated_track : track :=
  mk_track "Song" "Artist A" "Album X" "unknown" 200000 "spotify:track:u".


(** A catalog that also records the queries it is sent, in order. *)
Definition logged {W : Type} (search : string -> W -> list track * W)
           (query : string) (st : W * list string)
  : list track * (W * list string) :=
  let '(results, w) := search query (fst st) in
  (results, (w, (snd st ++ [query])%list)).

Definition silent_search (query : string) (w : unit) : list track * unit :=
  ([], w).

(** ['uri' not in song] *)
Definition unsearched (sg : song) : bool := negb (has_uri (song_uri sg)).

(** [song['uri'] is None], the key being present. *)
Definition uri_is_null (sg : song) : bool :=
  match song_uri sg with Null => true | _ => false end.

(** The playlists [search_all] has songs to search for. *)
Definition to_search (m3u : list (string * list song)) : list (string * list song) :=
  filter (fun p => negb (is_empty (snd p)))
         (map (fun p => (fst p, filter unsearched (snd p))) m3u).

(** [r] is [s] with another uri: an identifier, or no uri as before. *)
Definition searched (s r : song) : Prop :=
  r = set_uri s (song_uri r)
  /\ (song_uri r = song_uri s \/ exists u, song_uri r = Uri u).

(** The test that sends a song of a playlist to re-matching. *)
Definition stale (pl : remote_playlist) (sg : song) : bool :=
  has_uri (song_uri sg)
  && negb (opt_in (uri_get (song_uri sg)) (spotify_uris_of pl)).

(** The two songs agree on the keys the tag reader wrote. *)
Definition same_tags (s s' : song) : Prop :=
  song_position s' = song_position s /\ song_title s' = song_title s
  /\ song_artist s' = song_artist s /\ song_album s' = song_album s
  /\ song_year s' = song_year s /\ song_length s' = song_length s.

(** What [update_uris] does to one song of the playlist [name]. *)
Definition rematched (name : string) (pl : remote_playlist)
           (m3u_uris : list (option string)) (sg : song) : option song :=
  if stale pl sg
  then rematch name (clean_title (song_title sg)) m3u_uris sg (playlist_tracks pl)
  else None.

(** What [update_uris] does to one local playlist: the playlist after
    the call and the songs it appends to [updated_uris]. *)
Definition rematch_playlist (spotify : list (string * remote_playlist))
           (p : string * list song) : (string * list song) * list song :=
  match lookup (fst p) spotify with
  | Some pl =>
      let m3u_uris := m3u_uris_of (snd p) in
      ((fst p,
        map (fun s => match rematched (fst p) pl m3u_uris s with
                      | Some s' => s'
                      | None => s
                      end) (snd p)),
       flat_map (fun s => match rematched (fst p) pl m3u_uris s with
                          | Some s' => [s']
                          | None => []
                          end) (snd p))
  | None => (p, [])
  end.

Definition synced_local : list (string * list song) :=
  [("Rock", [stale_song 0 "spotify:track:new"; sample_song]);
   ("Jazz", [stale_song 0 "spotify:track:old1"])].

(** What one entry of the result of [update_playlist] says about the
    local playlist [p] it was made for. *)
Definition update_of (create_playlist : string -> string)
           (spotify : list (string * remote_playlist)) (limit : nat)
           (p : string * list song) (u : playlist_update) : Prop :=
  update_name u = fst p
  /\ limit <> 0%nat
  /\ update_posts u = map (Py.join ",") (chunks limit (update_uri_list u))
  /\ match lookup (fst p) spotify with
     | Some pl =>
         update_created u = false /\ update_url u = playlist_url pl
         /\ forall x, In x (update_uri_list u)
                      <-> (exists s, In s (snd p) /\ song_uri s = Uri x)
                          /\ ~ In x (map remote_uri (playlist_tracks pl))
     | None =>
         update_created u = true /\ update_url u = create_playlist (fst p)
         /\ forall x, In x (update_uri_list u)
                      <-> exists s, In s (snd p) /\ song_uri s = Uri x
     end.

(** A track object of a playlist page: the keys of [track] and
    ['track_number']. *)
Record api_track : Type := {
  api_core : track;
  api_track_number : Z
}.

(** The dictionary [get_track_metadata] builds. *)
Record track_metadata : Type := {
  meta_position : nat;
  meta_title : string;
  meta_artist : string;
  meta_album : string;
  meta_track : Z;
  meta_year : Z;
  meta_length : Q;
  meta_uri : string
}.

(** [get_track_metadata(position, track)]; the one step that can raise
    is [int(...)] on the digits of the release date. *)
Definition get_track_metadata (position : nat) (t : api_track)
  : result track_metadata :=
  let title := track_name (api_core t) in
  let artist := Py.join " " (map artist_name (track_artists (api_core t))) in
  let album := album_name (track_album (api_core t)) in
  let track_number := api_track_number t in
  year <- release_year (api_core t) ;;
  Ok {| meta_position := position; meta_title := title; meta_artist := artist;
        meta_album := album; meta_track := track_number; meta_year := year;
        meta_length := inject_Z (track_duration_ms (api_core t)) / 1000;
        meta_uri := track_uri (api_core t) |}.

(** The keys of a remote track that the reconciler reads. *)
Definition as_remote_track (m : track_metadata) : remote_track :=
  {| remote_title := meta_title m; remote_artist := meta_artist m;
     remote_album := meta_album m; remote_uri := meta_uri m |}.

(** A playlist object of the listing, with the pages that following its
    ['tracks']['href'] and then each ['next'] link returns. *)
Record api_playlist : Type := {
  api_name : string;
  api_href : string;
  api_track_pages : list (list api_track)
}.

(** [[self.get_track_metadata(i, result['track']) for i, result in
    enumerate(results['items'])]], from index [i] on. *)
Fixpoint page_metadata (i : nat) (items : list api_track)
  : result (list track_metadata) :=
  match items with
  | [] => Ok []
  | t :: rest =>
      m <- get_track_metadata i t ;;
      ms <- page_metadata (S i) rest ;;
      Ok (m :: ms)
  end.

(** The inner [while] loop: the tracks of all the pages of one playlist. *)
Fixpoint pages_metadata (pages : list (list api_track))
  : result (list track_metadata) :=
  match pages with
  | [] => Ok []
  | page :: rest =>
      tracks <- page_metadata 0 page ;;
      more <- pages_metadata rest ;;
      Ok (tracks ++ more)%list
  end.

(** [d[name] = v] on an insertion-ordered dictionary: a key that is
    present keeps its place. *)
Fixpoint dict_set {A : Type} (name : string) (v : A) (d : list (string * A))
  : list (string * A) :=
  match d with
  | [] => [(name, v)]
  | (k, x) :: rest =>
      if String.eqb name k then (k, v) :: rest
      else (k, x) :: dict_set name v rest
  end.

(** The loops over the listed playlists, pages flattened: [playlists] is
    the dictionary built so far. *)
Fixpoint collect_playlists (playlist_names : list string)
         (listing : list api_playlist)
         (playlists : list (string * (string * list track_metadata)))
  : result (list (string * (string * list track_metadata))) :=
  match listing with
  | [] => Ok playlists
  | playlist :: rest =>
      let name := api_name playlist in
      if existsb (String.eqb name) playlist_names then
        tracks <- pages_metadata (api_track_pages playlist) ;;
        collect_playlists playlist_names rest
          (dict_set name (api_href playlist, tracks) playlists)
      else collect_playlists playlist_names rest playlists
  end.

(** [get_spotify_metadata(playlist_names, authorisation)], given the
    pages of the user's playlists that the service returns. [max] of the
    keys raises when no playlist was kept. *)
Definition get_spotify_metadata (playlist_names : list string)
           (pages : list (list api_playlist))
  : result (list (string * (string * list track_metadata))) :=
  playlists <- collect_playlists playlist_names (concat pages) [] ;;
  if is_empty playlists then Raise ValueError else Ok playlists.

(** The result as [update_uris] and [update_playlist] read it. *)
Definition as_remote (playlists : list (string * (string * list track_metadata)))
  : list (string * remote_playlist) :=
  map (fun p => (fst p, {| playlist_url := fst (snd p);
                           playlist_tracks := map as_remote_track (snd (snd p)) |}))
      playlists.

(** The listed playlist that ends up under [name]: the last one of that
    name. *)
Fixpoint last_named (name : string) (listing : list api_playlist)
  : option api_playlist :=
  match listing with
  | [] => None
  | playlist :: rest =>
      match last_named name rest with
      | Some p => Some p
      | None => if String.eqb name (api_name playlist) then Some playlist else None
      end
  end.

(** What is stored for a listed playlist. *)
Definition stored (playlist : api_playlist) (v : string * list track_metadata)
  : Prop :=
  fst v = api_href playlist
  /\ pages_metadata (api_track_pages playlist) = Ok (snd v).

Definition sample_api_track (t : track) (n : Z) : api_track :=
  {| api_core := t; api_track_number := n |}.

Definition sample_api_rock_old : api_playlist :=
  {| api_name := "Rock"; api_href := "https://api.spotify.com/v1/playlists/0/tracks";
     api_track_pages := [[sample_api_track karaoke_track 1]] |}.

Definition sample_api_rock : api_playlist :=
  {| api_name := "Rock"; api_href := "https://api.spotify.com/v1/playlists/1/tracks";
     api_track_pages := [[sample_api_track timed_track 1;
                          sample_api_track five_track 2];
                         [sample_api_track two_track 3]] |}.

Definition sample_api_pop : api_playlist :=
  {| api_name := "Pop"; api_href := "https://api.spotify.com/v1/playlists/2/tracks";
     api_track_pages := [[sample_api_track undated_track 1]] |}.

Definition sample_listing : list (list api_playlist) :=
  [[sample_api_rock_old; sample_api_pop]; [sample_api_rock]].

Definition sample_metadata : list (string * (string * list track_metadata)) :=
  match get_spotify_metadata ["Rock"; "Jazz"] sample_listing with
  | Ok playlists => playlists
  | Raise _ => []
  end.

Definition sample_rock_tracks : list track_metadata :=
  match pages_metadata (api_track_pages sample_api_rock) with
  | Ok ms => ms
  | Raise _ => []
  end.

Definition rematched_local : list (string * list song) :=
  fst (update_uris_loop stale_local fresh_remote).

Definition rematched_updates : list playlist_update :=
  match update_playlist new_url rematched_local fresh_remote default_limit with
  | Ok us => us
  | Raise _ => []
  end.

(** * Properties *)

(** ** The model on sample inputs *)

Example replace_sample : Py.replace "the " " " "the the song" = "  song".
Proof. reflexivity. Qed.

Example unbracket_sample :
  Py.unbracket "Song (Live) [2011 (x] y)" = "Song   y)".
Proof. reflexivity. Qed.

Example collapse_sample : Py.strip (Py.collapse "??a -- b!") = "a b".
Proof. reflexivity. Qed.

Example split_sample : Py.split_char " " "a  b" = ["a"; ""; "b"].
Proof. reflexivity. Qed.

Example clean_tags_sample :
  clean_tags (song_tags sample_song) (TagsStr "all")
  = ("song", "artist a", "downloads").
Proof. reflexivity. Qed.

(** The end-to-end scenario of the specification: the candidate 5 s away
    is accepted by Phase 1. *)
Example end_to_end_sample :
  strong_match sample_song
    [mk_track "Song" "Artist A" "Album X" "2020" 205000 "spotify:track:x"]
  = Ok (Some (set_uri sample_song (Uri "spotify:track:x"))).
Proof. reflexivity. Qed.

(** ** Duration comparisons *)

Lemma Qlt_bool_iff (a b : Q) : Qlt_bool a b = true <-> (a < b)%Q.
Proof.
  unfold Qlt_bool. rewrite negb_true_iff. split; intro H.
  - apply Qnot_le_lt. intro Hle. apply Qle_bool_iff in Hle. congruence.
  - destruct (Qle_bool b a) eqn:E; [|reflexivity].
    apply Qle_bool_iff in E. exfalso. exact (Qlt_not_le _ _ H E).
Qed.

Lemma Qlt_bool_false (a b : Q) : Qlt_bool a b = false <-> (b <= a)%Q.
Proof.
  unfold Qlt_bool. rewrite negb_false_iff. apply Qle_bool_iff.
Qed.

Lemma set_uri_twice (sg : song) (u v : uri_state) :
  set_uri (set_uri sg u) v = set_uri sg v.
Proof. reflexivity. Qed.

Lemma length_diff_set_uri (sg : song) (u : uri_state) (t : track) :
  length_diff (set_uri sg u) t = length_diff sg t.
Proof. reflexivity. Qed.

(** ** Phase 1 *)

(** The artist loop of Phase 1 computes a conjunction. *)
Lemma strong_artists_forallb (nk : bool) (l : list artist_obj) :
  strong_artists nk l = nk && forallb artist_not_karaoke l.
Proof.
  revert nk. induction l as [|a l IH]; intro nk; simpl.
  - now rewrite andb_true_r.
  - destruct nk; simpl; [|reflexivity].
    destruct (artist_not_karaoke a); simpl; [apply IH|reflexivity].
Qed.

Lemma strong_match_step_reject (sg : song) (t : track) (rest : list track) :
  strong_rejects sg t -> strong_match sg (t :: rest) = strong_match sg rest.
Proof.
  intros (y & Hy & H). simpl. rewrite Hy. simpl. fold (karaoke_guard t).
  destruct H as [H | (H1 & H2 & H3)].
  - rewrite H. now rewrite andb_false_r.
  - rewrite H1, H2. apply Z.eqb_neq in H3. rewrite H3. reflexivity.
Qed.


Lemma strong_match_none (sg : song) (tracks : list track) :
  Forall (strong_rejects sg) tracks -> strong_match sg tracks = Ok None.
Proof.
  induction 1 as [|t l Ht _ IH]; [reflexivity|].
  now rewrite strong_match_step_reject.
Qed.




(** ** Phase 2 *)

Lemma weak_match_loop_spec (title artist : string) (tracks : list track) :
  forall (m : Q) (sg : song),
    ((forall t, In t tracks -> weak_signals title artist t = true ->
                ~ (length_diff sg t < m)%Q) ->
     weak_match_loop title artist tracks m sg = sg)
    /\ ((exists t, In t tracks /\ weak_signals title artist t = true
                   /\ (length_diff sg t < m)%Q) ->
        exists best, In best tracks
          /\ weak_signals title artist best = true
          /\ (length_diff sg best < m)%Q
          /\ weak_match_loop title artist tracks m sg
               = set_uri sg (Uri (track_uri best))
          /\ forall t, In t tracks -> weak_signals title artist t = true ->
                       (length_diff sg best <= length_diff sg t)%Q).
Proof.
  induction tracks as [|t rest IH]; intros m sg.
  - split; [reflexivity|]. intros (t & [] & _).
  - simpl weak_match_loop.
    assert (Hsig : (let '(artist_match, not_karaoke) := weak_flags artist t in
                    (artist_match || title_match title t)
                    && Qlt_bool (length_diff sg t) m && not_karaoke)
                   = weak_signals title artist t && Qlt_bool (length_diff sg t) m).
    { unfold weak_signals. destruct (weak_flags artist t) as [am nk]. simpl.
      destruct (am || title_match title t), nk, (Qlt_bool (length_diff sg t) m);
        reflexivity. }
    destruct (weak_flags artist t) as [am nk] eqn:Hf.
    rewrite Hsig. clear Hsig.
    destruct (weak_signals title artist t) eqn:Hs; simpl.
    + destruct (Qlt_bool (length_diff sg t) m) eqn:Hlt.
      * (* the candidate is taken *)
        apply Qlt_bool_iff in Hlt.
        destruct (IH (length_diff sg t) (set_uri sg (Uri (track_uri t))))
          as [IHnone IHsome].
        split.
        { intro Hno. exfalso. apply (Hno t); [now left|exact Hs|exact Hlt]. }
        intros _.
        assert (Hdec : (exists t', In t' rest /\ weak_signals title artist t' = true
                          /\ (length_diff sg t' < length_diff sg t)%Q)
                       \/ (forall t', In t' rest ->
                             weak_signals title artist t' = true ->
                             ~ (length_diff sg t' < length_diff sg t)%Q)).
        { clear. induction rest as [|r rest IHr].
          - right. intros t' [].
          - destruct IHr as [(t' & Hin & H1 & H2) | Hall].
            + left. exists t'. split; [now right|auto].
            + destruct (weak_signals title artist r) eqn:Hr.
              * destruct (Qlt_le_dec (length_diff sg r) (length_diff sg t))
                  as [Hl|Hl].
                -- left. exists r. split; [now left|auto].
                -- right. intros t' [<-|Hin] Ht'.
                   ++ now apply Qle_not_lt.
                   ++ now apply Hall.
              * right. intros t' [<-|Hin] Ht'; [congruence|now apply Hall]. }
        destruct Hdec as [Hex | Hall].
        -- destruct (IHsome Hex) as (best & Hin & Hb & Hbl & Heq & Hmin).
           exists best. repeat split.
           ++ now right.
           ++ exact Hb.
           ++ eapply Qlt_trans; [exact Hbl|exact Hlt].
           ++ exact Heq.
           ++ intros t' [<-|Hin'] Ht'.
              ** now apply Qlt_le_weak.
              ** now apply Hmin.
        -- exists t. repeat split.
           ++ now left.
           ++ exact Hs.
           ++ exact Hlt.
           ++ now apply IHnone.
           ++ intros t' [<-|Hin'] Ht'.
              ** apply Qle_refl.
              ** apply Qnot_lt_le. now apply Hall.
      * (* the signals hold but the duration is not below the minimum *)
        apply Qlt_bool_false in Hlt.
        destruct (IH m sg) as [IHnone IHsome].
        split.
        { intro Hno. apply IHnone. intros t' Hin. apply Hno. now right. }
        intros (t' & [<-|Hin] & Ht' & Hl).
        { exfalso. exact (Qle_not_lt _ _ Hlt Hl). }
        destruct IHsome as (best & Hin' & Hb & Hbl & Heq & Hmin).
        { exists t'. auto. }
        exists best. repeat split; auto.
        intros t'' [<-|Hin''] Ht''.
        -- apply Qlt_le_weak. eapply Qlt_le_trans; [exact Hbl|exact Hlt].
        -- now apply Hmin.
    + (* the signals fail *)
      destruct (IH m sg) as [IHnone IHsome].
      split.
      { intro Hno. apply IHnone. intros t' Hin. apply Hno. now right. }
      intros (t' & [<-|Hin] & Ht' & Hl); [congruence|].
      destruct IHsome as (best & Hin' & Hb & Hbl & Heq & Hmin).
      { exists t'. auto. }
      exists best. repeat split; auto.
      intros t'' [<-|Hin''] Ht''; [congruence|now apply Hmin].
Qed.

Lemma weak_match_loop_none (sg : song) (title artist : string) (tracks : list track) :
  (forall t, In t tracks -> ~ weak_qualifies sg title artist t) ->
  weak_match_loop title artist tracks 600 sg = sg.
Proof.
  intro H. apply (proj1 (weak_match_loop_spec title artist tracks 600 sg)).
  intros t Hin Hs Hl. apply (H t Hin). now split.
Qed.



(** ** The artist loop of Phase 2 *)

(** C5, as stated, fails: the first artist of this candidate trips the
    guard, and [artist_match] ends false, computed from that artist's
    name, not left at its initial [True]. *)
Lemma C5_counterexample :
  ~ (forall (artist : string) (t : track),
        first_artist_trips t -> fst (weak_flags artist t) = true).
Proof.
  intro H. specialize (H "queen" karaoke_band_track).
  assert (T : first_artist_trips karaoke_band_track) by reflexivity.
  apply H in T. vm_compute in T. discriminate.
Qed.

(** C5, amended. When the first listed artist trips the guard, the artist
    loop stops after that artist with [not_karaoke] false and
    [artist_match] equal to the token test on that artist's cleaned name;
    [artist_match] keeps its initial [True] only for a candidate that
    lists no artist. *)
Theorem C5_first_artist_trips :
  forall (artist : string) (t : track),
    (first_artist_trips t ->
     exists artist_ rest,
       track_artists t = artist_ :: rest
       /\ weak_flags artist t
          = (all_words_in artist (cleaned_artist_name artist_), false))
    /\ (track_artists t = [] ->
        weak_flags artist t = (true, album_not_karaoke t)).
Proof.
  intros artist t. unfold first_artist_trips, weak_flags. split.
  - destruct (track_artists t) as [|a rest]; [intros []|].
    intro H. exists a, rest. split; [reflexivity|].
    simpl. rewrite H. simpl. now rewrite orb_true_r.
  - intros ->. reflexivity.
Qed.

(** An instance of C5 on the candidate of the counterexample. *)
Lemma C5_witness :
  exists artist_ rest,
    track_artists karaoke_band_track = artist_ :: rest
    /\ weak_flags "queen" karaoke_band_track
       = (all_words_in "queen" (cleaned_artist_name artist_), false).
Proof.
  apply (proj1 (C5_first_artist_trips "queen" karaoke_band_track)).
  reflexivity.
Defined.

(** ** Batching of the playlist writes *)







Section WriterFacts.

Variable create_playlist : string -> string.

Lemma update_one_ok spotify limit name songs :
  limit <> 0%nat ->
  exists u, update_one create_playlist spotify limit name songs = Ok u
            /\ update_name u = name
            /\ update_posts u = map (Py.join ",") (chunks limit (update_uri_list u)).
Proof.
  intro H. unfold update_one.
  destruct (lookup name spotify) as [pl|];
    (destruct (Nat.eqb_spec limit 0) as [E|_]; [contradiction|]);
    eexists; (split; [reflexivity|]); split; reflexivity.
Qed.

Lemma update_playlist_loop_ok spotify limit (items : list (string * list song)) :
  limit <> 0%nat ->
  exists us,
    update_playlist_loop create_playlist items spotify limit = Ok us
    /\ map update_name us = map fst items
    /\ Forall (fun u => update_posts u
                        = map (Py.join ",") (chunks limit (update_uri_list u))) us.
Proof.
  intro H. induction items as [|[name songs] rest IH].
  - exists []. repeat split. constructor.
  - destruct IH as (us & E & Hn & Hp).
    destruct (update_one_ok spotify limit name songs H) as (u & Eu & Hu & Hpu).
    exists (u :: us). simpl. rewrite Eu. simpl. rewrite E. simpl.
    split; [reflexivity|]. split; [now rewrite Hu, Hn|].
    now constructor.
Qed.

Lemma update_playlist_ok m3u spotify limit :
  spotify <> [] -> limit <> 0%nat ->
  exists us,
    update_playlist create_playlist m3u spotify limit = Ok us
    /\ map update_name us = rev (map fst m3u)
    /\ Forall (fun u => update_posts u
                        = map (Py.join ",") (chunks limit (update_uri_list u))) us.
Proof.
  intros Hs Hl. unfold update_playlist.
  destruct spotify as [|p spotify']; [contradiction|]. simpl is_empty. cbv iota.
  destruct (update_playlist_loop_ok (p :: spotify') limit (rev m3u) Hl)
    as (us & E & Hn & Hp).
  exists us. split; [exact E|]. split; [|exact Hp].
  now rewrite Hn, map_rev.
Qed.


(** C9, amended. The playlists are acted on in the reverse of the
    order of the keys of the local mapping. *)
Theorem C9_update_playlist_reverse_order :
  forall (m3u : list (string * list song))
         (spotify : list (string * remote_playlist)) (limit : nat),
    spotify <> [] -> limit <> 0%nat ->
    exists us,
      update_playlist create_playlist m3u spotify limit = Ok us
      /\ names_acted_on us = rev (map fst m3u).
Proof.
  intros m3u spotify limit Hs Hl.
  destruct (update_playlist_ok m3u spotify limit Hs Hl) as (us & E & Hn & _).
  exists us. split; [exact E|exact Hn].
Qed.

End WriterFacts.


Example update_playlist_120 :
  match update_playlist new_url sample_local_120 sample_remote default_limit with
  | Ok [u] => update_created u = true
              /\ List.length (update_uri_list u) = 120%nat
              /\ List.length (update_posts u) = 3%nat
  | _ => False
  end.
Proof. vm_compute. repeat split. Qed.

(** C9, as stated, fails: with the local playlists "Rock" then "Jazz",
    "Jazz" is acted on first. *)
Lemma C9_counterexample :
  ~ (forall create_playlist m3u spotify limit us,
        update_playlist create_playlist m3u spotify limit = Ok us ->
        names_acted_on us = map fst m3u).
Proof.
  intro H.
  specialize (H new_url sample_local_two sample_remote default_limit _ eq_refl).
  vm_compute in H. discriminate.
Qed.

(** An instance of C9 on the playlists of the counterexample. *)
Lemma C9_witness :
  exists us,
    update_playlist new_url sample_local_two sample_remote default_limit = Ok us
    /\ names_acted_on us = rev (map fst sample_local_two).
Proof.
  apply (C9_update_playlist_reverse_order new_url sample_local_two sample_remote
           default_limit); discriminate.
Defined.

(** ** The karaoke guard *)

(** The guard on the album name holds in both phases: a candidate that is
    selected has no karaoke term in its lower-cased album name. *)
Lemma strong_match_album_guard (sg sg' : song) (tracks : list track) :
  strong_match sg tracks = Ok (Some sg') ->
  exists t, In t tracks /\ sg' = set_uri sg (Uri (track_uri t))
            /\ album_not_karaoke t = true.
Proof.
  induction tracks as [|t rest IH]; simpl; [discriminate|].
  destruct (release_year t) as [y|e]; simpl; [|discriminate].
  destruct ((time_match sg t || album_match sg t || (song_year sg =? y)%Z)
            && strong_artists (album_not_karaoke t) (track_artists t)) eqn:E.
  - intro H. inversion H as [Hs]. exists t. split; [now left|].
    split; [reflexivity|].
    apply andb_true_iff in E. destruct E as [_ E].
    rewrite strong_artists_forallb in E. apply andb_true_iff in E. exact (proj1 E).
  - intro H. destruct (IH H) as (t' & Hin & H1 & H2). exists t'. auto.
Qed.

Lemma weak_artists_guard (artist : string) (am nk : bool) (l : list artist_obj) :
  snd (weak_artists artist am nk l) = true -> nk = true.
Proof.
  revert am nk. induction l as [|a l IH]; intros am nk; simpl; [auto|].
  destruct (all_words_in artist (cleaned_artist_name a)
            || negb (nk && artist_not_karaoke a)) eqn:E; simpl.
  - intro H. apply andb_true_iff in H. exact (proj1 H).
  - intro H. apply IH in H. apply andb_true_iff in H. exact (proj1 H).
Qed.

Lemma weak_signals_album_guard (title artist : string) (t : track) :
  weak_signals title artist t = true -> album_not_karaoke t = true.
Proof.
  unfold weak_signals, weak_flags. intro H. apply andb_true_iff in H.
  destruct H as [_ H]. now apply weak_artists_guard in H.
Qed.

(** C1 at its failing inputs: a candidate whose only artist is named
    "Karaoke Stars" is selected by Phase 1, and one whose only artist is
    named "The Backing Band" is selected by Phase 2. *)
Theorem C1_artist_name_not_guarded :
  strong_match sample_song [karaoke_stars_track]
    = Ok (Some (set_uri sample_song (Uri "spotify:track:ks")))
  /\ weak_match sample_song [backing_band_track] "song" "artist a"
    = (set_uri sample_song (Uri "spotify:track:bb"), Some "spotify:track:bb")
  /\ Py.contains "karaoke" (cleaned_artist_name (api_artist "Karaoke Stars")) = true
  /\ Py.contains "backing" (cleaned_artist_name (api_artist "The Backing Band")) = true.
Proof. repeat split. Qed.

(** ** Re-matching of stale identifiers *)

(** C7 at its failing input: two local songs with stale identifiers and
    the same title are both reassigned the one remote track. *)
Theorem C7_duplicate_reassignment :
  exists m3u' updated,
    update_uris stale_local fresh_remote = Ok (m3u', updated)
    /\ new_uris updated = [Some "spotify:track:new"; Some "spotify:track:new"]
    /\ map song_position updated = [0%Z; 1%Z]
    /\ map song_old_uri updated
       = [Some "spotify:track:old1"; Some "spotify:track:old2"]
    /\ ~ NoDup (new_uris updated).
Proof.
  eexists. eexists. split; [reflexivity|]. repeat split.
  intro H. inversion H as [|x l Hin _]. apply Hin. now left.
Qed.

(** A remote track whose identifier a local song of the playlist held
    when the call began is never assigned. *)
Lemma rematch_not_claimed name title m3u_uris sg tracks sg' :
  rematch name title m3u_uris sg tracks = Some sg' ->
  opt_in (uri_get (song_uri sg')) m3u_uris = false.
Proof.
  induction tracks as [|t rest IH]; simpl; [discriminate|].
  match goal with |- context [if ?c then _ else _] => destruct c eqn:E end.
  - intro H. inversion H as [Hs]. unfold reassign. cbn [song_uri uri_get].
    apply andb_true_iff in E. destruct E as [_ E]. now apply negb_true_iff in E.
  - exact IH.
Qed.

(** ** The resolution order *)

Lemma clean_tags_all (d : tag_dict) :
  clean_tags d (TagsStr "all")
  = (clean_title (tag_title d), clean_artist (tag_artist d),
     clean_album (tag_album d)).
Proof. reflexivity. Qed.

Lemma strong_match_sets_uri (sg sg' : song) (tracks : list track) :
  strong_match sg tracks = Ok (Some sg') -> exists u, song_uri sg' = Uri u.
Proof.
  intro H. apply strong_match_album_guard in H.
  destruct H as (t & _ & -> & _). now exists (track_uri t).
Qed.

Lemma weak_match_loop_uri (title artist : string) (tracks : list track) :
  forall (m : Q) (sg : song),
    song_uri (weak_match_loop title artist tracks m sg) = song_uri sg
    \/ exists u, song_uri (weak_match_loop title artist tracks m sg) = Uri u.
Proof.
  induction tracks as [|t rest IH]; intros m sg; simpl; [now left|].
  destruct (weak_flags artist t) as [am nk].
  match goal with |- context [if ?c then _ else _] => destruct c end.
  - right. destruct (IH (length_diff sg t) (set_uri sg (Uri (track_uri t))))
      as [E | E]; [|exact E].
    rewrite E. now exists (track_uri t).
  - apply IH.
Qed.


Section CatalogFacts.

Variable W : Type.
Variable search : string -> W -> list track * W.

Lemma get_uri_keeps_or_sets (sg sg' : song) (w w' : W) :
  get_uri W search sg w = Ok (sg', w') ->
  song_uri sg' = song_uri sg \/ exists u, song_uri sg' = Uri u.
Proof.
  unfold get_uri. rewrite clean_tags_all.
  destruct (first_results W search _ _ _ w) as [results w1].
  destruct (strong_match sg results) as [[s1|]|e] eqn:E1; simpl;
    [| |discriminate].
  { intro H. inversion H; subst. right. eapply strong_match_sets_uri; eauto. }
  destruct (search _ w1) as [results_title w2].
  destruct (strong_match sg results_title) as [[s2|]|e] eqn:E2; simpl;
    [| |discriminate].
  { intro H. inversion H; subst. right. eapply strong_match_sets_uri; eauto. }
  unfold weak_match.
  set (s3 := weak_match_loop _ _ results 600 sg).
  assert (H3 : song_uri s3 = song_uri sg \/ exists u, song_uri s3 = Uri u)
    by apply weak_match_loop_uri.
  destruct (uri_get (song_uri s3)) eqn:E3.
  { intro H. inversion H; subst. exact H3. }
  intro H. inversion H; subst.
  match goal with |- song_uri (weak_match_loop ?a ?b ?c ?d s3) = _ \/ _ =>
    destruct (weak_match_loop_uri a b c d s3) as [E | E]
  end.
  - rewrite E. exact H3.
  - right. exact E.
Qed.

End CatalogFacts.



(** ** Songs with an empty title key *)

(** The empty key has the one token [''], which every title contains. *)
Lemma contains_empty (s : string) : Py.contains "" s = true.
Proof. destruct s; reflexivity. Qed.

Lemma title_match_empty (t : track) : title_match "" t = true.
Proof.
  unfold title_match. simpl. unfold all_words_in. simpl.
  now rewrite contains_empty.
Qed.

Lemma weak_signals_empty_title (artist : string) (t : track) :
  weak_signals "" artist t = snd (weak_flags artist t).
Proof.
  unfold weak_signals. now rewrite title_match_empty, orb_true_r.
Qed.

Lemma strong_match_none_inv (sg : song) (tracks : list track) :
  strong_match sg tracks = Ok None -> Forall (strong_rejects sg) tracks.
Proof.
  induction tracks as [|t rest IH]; [constructor|].
  simpl. destruct (release_year t) as [y|e] eqn:Hy; simpl; [|discriminate].
  fold (karaoke_guard t).
  destruct (time_match sg t) eqn:H1, (album_match sg t) eqn:H2,
    (song_year sg =? y)%Z eqn:H3, (karaoke_guard t) eqn:H4; simpl;
    try discriminate; intro H; (constructor; [|now apply IH]);
    exists y; (split; [exact Hy|]); try (left; assumption).
  right. apply Z.eqb_neq in H3. auto.
Qed.

Lemma weak_match_loop_absent (sg : song) (title artist : string)
      (tracks : list track) :
  song_uri sg = Absent ->
  (song_uri (weak_match_loop title artist tracks 600 sg) = Absent
   <-> forall t, In t tracks -> ~ weak_qualifies sg title artist t).
Proof.
  intro Ha. split.
  - intros H t Hin [Hs Hl].
    destruct (proj2 (weak_match_loop_spec title artist tracks 600 sg))
      as (best & _ & _ & _ & E & _).
    { exists t. auto. }
    rewrite E in H. discriminate.
  - intro H. now rewrite weak_match_loop_none.
Qed.

Lemma not_weak_qualifies_empty (sg : song) (artist : string) (t : track) :
  ~ weak_qualifies sg "" artist t
  <-> (snd (weak_flags artist t) = false \/ (600 <= length_diff sg t)%Q).
Proof.
  unfold weak_qualifies. rewrite weak_signals_empty_title. split.
  - intro H. destruct (snd (weak_flags artist t)); [|now left].
    right. apply Qnot_lt_le. intro Hl. apply H. now split.
  - intros [H | H] [H1 H2]; [congruence|].
    exact (Qle_not_lt _ _ H H2).
Qed.

Section EmptyTitleKey.

Variable W : Type.
Variable search : string -> W -> list track * W.

Variable sg : song.
Hypothesis empty_key : clean_title (song_title sg) = "".
Hypothesis not_searched : song_uri sg = Absent.

Let artist_clean := clean_artist (song_artist sg).
Let album_clean := clean_album (song_album sg).

Lemma get_uri_empty_key_rejected (w w1 w2 : W) (results results_title : list track) :
  first_results W search "" artist_clean album_clean w = (results, w1) ->
  search "" w1 = (results_title, w2) ->
  Forall (no_other_signal sg) (results ++ results_title) ->
  get_uri W search sg w = Ok (sg, w2).
Proof.
  intros E1 E2 H. apply Forall_app in H. destruct H as [Hr Ht].
  unfold get_uri. rewrite clean_tags_all. simpl tag_title. simpl tag_artist.
  simpl tag_album. rewrite empty_key.
  fold artist_clean album_clean. rewrite E1.
  rewrite strong_match_none
    by (eapply Forall_impl; [|exact Hr]; intros t Ht'; apply Ht').
  simpl. rewrite E2.
  rewrite strong_match_none
    by (eapply Forall_impl; [|exact Ht]; intros t Ht'; apply Ht').
  simpl. unfold weak_match.
  rewrite (weak_match_loop_none sg "" artist_clean results).
  2:{ intros t Hin. apply not_weak_qualifies_empty.
      rewrite Forall_forall in Hr. apply (Hr t Hin). }
  rewrite not_searched. simpl.
  rewrite (weak_match_loop_none sg "" artist_clean results_title).
  2:{ intros t Hin. apply not_weak_qualifies_empty.
      rewrite Forall_forall in Ht. apply (Ht t Hin). }
  reflexivity.
Qed.

Lemma get_uri_empty_key_absent (w w1 w2 w' : W) (sg' : song)
      (results results_title : list track) :
  first_results W search "" artist_clean album_clean w = (results, w1) ->
  search "" w1 = (results_title, w2) ->
  get_uri W search sg w = Ok (sg', w') ->
  song_uri sg' = Absent ->
  sg' = sg /\ Forall (no_other_signal sg) (results ++ results_title).
Proof.
  intros E1 E2. unfold get_uri. rewrite clean_tags_all.
  simpl tag_title. simpl tag_artist. simpl tag_album. rewrite empty_key.
  fold artist_clean album_clean. rewrite E1.
  destruct (strong_match sg results) as [[s1|]|e] eqn:S1; simpl;
    [| |discriminate].
  { intros H Ha. inversion H; subst.
    apply strong_match_sets_uri in S1. destruct S1 as (u & S1). congruence. }
  rewrite E2.
  destruct (strong_match sg results_title) as [[s2|]|e] eqn:S2; simpl;
    [| |discriminate].
  { intros H Ha. inversion H; subst.
    apply strong_match_sets_uri in S2. destruct S2 as (u & S2). congruence. }
  apply strong_match_none_inv in S1, S2.
  unfold weak_match.
  set (s3 := weak_match_loop "" artist_clean results 600 sg).
  destruct (uri_get (song_uri s3)) eqn:U3.
  { intros H Ha. inversion H; subst. rewrite Ha in U3. discriminate. }
  assert (A3 : song_uri s3 = Absent).
  { destruct (weak_match_loop_uri "" artist_clean results 600 sg) as [E|(u & E)];
      fold s3 in E; [congruence|]. rewrite E in U3. discriminate. }
  pose proof (proj1 (weak_match_loop_absent sg "" artist_clean results
                       not_searched) A3) as N3.
  assert (E3 : s3 = sg) by (now apply weak_match_loop_none).
  rewrite E3. intros H Ha. inversion H; subst sg'.
  pose proof (proj1 (weak_match_loop_absent sg "" artist_clean results_title
                       not_searched) Ha) as N4.
  split; [now apply weak_match_loop_none|].
  apply Forall_app. split; apply Forall_forall; intros t Hin; split.
  - rewrite Forall_forall in S1. now apply S1.
  - apply not_weak_qualifies_empty. now apply N3.
  - rewrite Forall_forall in S2. now apply S2.
  - apply not_weak_qualifies_empty. now apply N4.
Qed.

Lemma search_all_single (name : string) (w : W) :
  search_all W search [(name, [sg])] w
  = r <- get_uri W search sg w ;;
    Ok ([(name, [mark_missing (fst r)])],
        [(name, map mark_missing
                    (filter (fun s => negb (has_uri (song_uri s))) [fst r]))],
        snd r).
Proof.
  unfold search_all. simpl. rewrite not_searched. simpl.
  destruct (get_uri W search sg w) as [[s w']|e]; reflexivity.
Qed.

End EmptyTitleKey.

(** C2, as stated, fails: the title "???" has the empty key, and the song
    is still matched, by Phase 1 on the duration alone and by Phase 2
    because the empty key matches every title; the song ends with that
    candidate's uri. *)
Lemma C2_counterexample :
  clean_title (song_title garbage_song) = ""
  /\ strong_match garbage_song [same_length_track]
     = Ok (Some (set_uri garbage_song (Uri "spotify:track:same")))
  /\ weak_match garbage_song [late_track] "" "artist a"
     = (set_uri garbage_song (Uri "spotify:track:late"), Some "spotify:track:late")
  /\ search_all unit (constant_search [same_length_track])
       [("Rock", [garbage_song])] tt
     = Ok ([("Rock", [set_uri garbage_song (Uri "spotify:track:same")])],
           [("Rock", [])], tt).
Proof. repeat split. Qed.

(** C2, amended. For a song whose title has the empty key, [title_match]
    holds for every candidate, and the song resolves to [uri = None]
    exactly when no candidate of [results] or of the title-only results
    gives another signal: Phase 1 passes over each of them, and in
    Phase 2 the guard of each fails or it is 600 s or more away. *)
Theorem C2_empty_title_key :
  forall (W : Type) (search : string -> W -> list track * W)
         (sg : song) (name : string) (w w1 w2 : W)
         (results results_title : list track),
    clean_title (song_title sg) = "" ->
    song_uri sg = Absent ->
    first_results W search "" (clean_artist (song_artist sg))
                  (clean_album (song_album sg)) w = (results, w1) ->
    search "" w1 = (results_title, w2) ->
    (forall t, title_match "" t = true)
    /\ ((exists w', search_all W search [(name, [sg])] w
                    = Ok (unresolved name sg, w'))
        <-> Forall (no_other_signal sg) (results ++ results_title)).
Proof.
  intros W search sg name w w1 w2 results results_title Hk Ha E1 E2.
  split; [apply title_match_empty|].
  rewrite (search_all_single W search sg Ha). split.
  - intros (w' & H).
    destruct (get_uri W search sg w) as [[s wr]|e] eqn:G; simpl in H;
      [|discriminate].
    unfold unresolved in H. inversion H as [[H1 H2 H3]].
    destruct (has_uri (song_uri s)) eqn:Hu; simpl in H2; [discriminate|].
    assert (Hs : song_uri s = Absent) by (destruct (song_uri s); simpl in Hu; congruence).
    now destruct (get_uri_empty_key_absent W search sg Hk Ha w w1 w2 wr s
                    results results_title E1 E2 G Hs).
  - intro H. exists w2.
    rewrite (get_uri_empty_key_rejected W search sg Hk Ha w w1 w2
               results results_title E1 E2 H).
    simpl. unfold mark_missing. rewrite Ha. simpl. rewrite Ha. reflexivity.
Qed.

(** An instance of C2: every candidate comes from a karaoke album. *)
Lemma C2_witness :
  (forall t, title_match "" t = true)
  /\ ((exists w', search_all unit (constant_search [karaoke_album_track])
                    [("Rock", [garbage_song])] tt
                  = Ok (unresolved "Rock" garbage_song, w'))
      <-> Forall (no_other_signal garbage_song)
                 ([karaoke_album_track] ++ [karaoke_album_track])).
Proof.
  apply (C2_empty_title_key unit (constant_search [karaoke_album_track])
           garbage_song "Rock" tt tt tt); reflexivity.
Defined.

Example garbage_song_unresolved :
  search_all unit (constant_search [karaoke_album_track])
    [("Rock", [garbage_song])] tt
  = Ok (unresolved "Rock" garbage_song, tt).
Proof. reflexivity. Qed.

(** ** The normalizer *)

(** *** Characters *)

Ltac ascii_cases c :=
  destruct c as [[] [] [] [] [] [] [] []]; vm_compute; try reflexivity;
  try discriminate; auto.

Lemma word_not_space (c : ascii) : Py.is_word c = true -> Py.is_space c = false.
Proof. ascii_cases c. Qed.

Lemma key_char_not_open (c : ascii) : key_char c = true -> Py.is_open c = false.
Proof. ascii_cases c. Qed.

Lemma key_char_lower (c : ascii) : key_char c = true -> Py.lower_char c = c.
Proof. ascii_cases c. Qed.

Lemma lower_char_not_upper (c : ascii) : not_upper (Py.lower_char c) = true.
Proof. ascii_cases c. Qed.

Lemma word_not_upper_key (c : ascii) :
  Py.is_word c = true -> not_upper c = true -> key_char c = true.
Proof. ascii_cases c. Qed.

(** *** [all_chars] through the string operations *)

Lemma all_chars_app p (a b : string) :
  all_chars p (a ++ b) = all_chars p a && all_chars p b.
Proof.
  induction a as [|c a IH]; simpl; [reflexivity|].
  now rewrite IH, andb_assoc.
Qed.

Lemma all_chars_lower (s : string) : all_chars not_upper (Py.lower s) = true.
Proof.
  induction s as [|c s IH]; simpl; [reflexivity|].
  now rewrite lower_char_not_upper, IH.
Qed.

Lemma all_chars_replace_go p (old new : string) :
  all_chars p new = true ->
  forall (s : string) (k : nat),
    all_chars p s = true -> all_chars p (Py.replace_go old new k s) = true.
Proof.
  intros Hn. induction s as [|c s IH]; intros k H; simpl; [reflexivity|].
  simpl in H. apply andb_true_iff in H. destruct H as [Hc Hs].
  destruct k as [|k]; [|now apply IH].
  destruct (Py.startswith old (String c s)).
  - rewrite all_chars_app, Hn. now apply IH.
  - simpl. rewrite Hc. now apply IH.
Qed.

Lemma all_chars_split_head p (sep s : string) :
  all_chars p s = true -> all_chars p (Py.split_head sep s) = true.
Proof.
  induction s as [|c s IH]; simpl; [reflexivity|]. intro H.
  apply andb_true_iff in H. destruct H as [Hc Hs].
  destruct (Py.startswith sep (String c s)); simpl; [reflexivity|].
  rewrite Hc. now apply IH.
Qed.

Lemma all_chars_unbracket_go p (s : string) :
  forall k, all_chars p s = true -> all_chars p (Py.unbracket_go k s) = true.
Proof.
  induction s as [|c s IH]; intros k H; simpl; [reflexivity|].
  simpl in H. apply andb_true_iff in H. destruct H as [Hc Hs].
  destruct k as [|k]; [|now apply IH].
  destruct (Py.is_open c); [destruct (Py.close_dist s)|]; simpl;
    rewrite ?Hc; now apply IH.
Qed.

Lemma all_chars_collapse_go (s : string) :
  forall b, all_chars not_upper s = true ->
            all_chars key_char (Py.collapse_go b s) = true.
Proof.
  induction s as [|c s IH]; intros b H; simpl; [reflexivity|].
  simpl in H. apply andb_true_iff in H. destruct H as [Hc Hs].
  destruct (Py.is_word c) eqn:Hw; simpl.
  - rewrite (word_not_upper_key c Hw Hc). now apply IH.
  - destruct b; simpl; now apply IH.
Qed.

Lemma all_chars_lstrip p (s : string) :
  all_chars p s = true -> all_chars p (Py.lstrip s) = true.
Proof.
  induction s as [|c s IH]; simpl; [reflexivity|]. intro H.
  destruct (Py.is_space c); [|exact H].
  apply andb_true_iff in H. now apply IH.
Qed.

Lemma all_chars_rstrip p (s : string) :
  all_chars p s = true -> all_chars p (Py.rstrip s) = true.
Proof.
  induction s as [|c s IH]; simpl; [reflexivity|]. intro H.
  apply andb_true_iff in H. destruct H as [Hc Hs]. specialize (IH Hs).
  destruct (Py.rstrip s) as [|c' r'].
  - destruct (Py.is_space c); simpl; [reflexivity|now rewrite Hc].
  - simpl. simpl in IH. now rewrite Hc, IH.
Qed.

Lemma all_chars_strip p (s : string) :
  all_chars p s = true -> all_chars p (Py.strip s) = true.
Proof. intro H. unfold Py.strip. now apply all_chars_rstrip, all_chars_lstrip. Qed.
(** *** Keys are fixed by the last two steps *)

Lemma single_spaced_weaken (s : string) :
  single_spaced true s = true -> single_spaced false s = true.
Proof.
  destruct s as [|c s]; simpl; [reflexivity|].
  destruct (Py.is_word c); [auto|]. rewrite andb_false_r. discriminate.
Qed.

Lemma collapse_go_single_spaced (s : string) :
  forall b, single_spaced b (Py.collapse_go b s) = true.
Proof.
  induction s as [|c s IH]; intro b; simpl; [reflexivity|].
  destruct (Py.is_word c) eqn:Hw; simpl.
  - rewrite Hw. apply IH.
  - destruct b; [apply IH|]. simpl. apply IH.
Qed.

Lemma collapse_go_fixed (s : string) :
  forall b, single_spaced b s = true -> Py.collapse_go b s = s.
Proof.
  induction s as [|c s IH]; intros b H; simpl; [reflexivity|].
  simpl in H. destruct (Py.is_word c).
  - now rewrite IH.
  - apply andb_true_iff in H. destruct H as [H Hs].
    apply andb_true_iff in H. destruct H as [Hc Hb].
    apply Ascii.eqb_eq in Hc. subst c.
    destruct b; [discriminate|]. now rewrite IH.
Qed.

Lemma single_spaced_lstrip (s : string) :
  forall b, single_spaced b s = true -> single_spaced true (Py.lstrip s) = true.
Proof.
  induction s as [|c s IH]; intros b H; simpl; [reflexivity|].
  simpl in H. destruct (Py.is_word c) eqn:Hw.
  - rewrite (word_not_space c Hw). simpl. now rewrite Hw.
  - apply andb_true_iff in H. destruct H as [H Hs].
    apply andb_true_iff in H. destruct H as [Hc _].
    apply Ascii.eqb_eq in Hc. subst c. simpl. now apply (IH true).
Qed.

Lemma single_spaced_rstrip (s : string) :
  forall b, single_spaced b s = true -> single_spaced b (Py.rstrip s) = true.
Proof.
  induction s as [|c s IH]; intros b H; simpl; [reflexivity|].
  simpl in H. destruct (Py.is_word c) eqn:Hw.
  - specialize (IH false H). destruct (Py.rstrip s) as [|c' r'].
    + rewrite (word_not_space c Hw). simpl. now rewrite Hw.
    + simpl. rewrite Hw. exact IH.
  - apply andb_true_iff in H. destruct H as [H Hs].
    apply andb_true_iff in H. destruct H as [Hc Hb].
    specialize (IH true Hs). destruct (Py.rstrip s) as [|c' r'].
    + apply Ascii.eqb_eq in Hc. subst c. reflexivity.
    + simpl. rewrite Hw, Hc, Hb. exact IH.
Qed.

Lemma no_lead_lstrip (s : string) : no_lead (Py.lstrip s) = true.
Proof.
  induction s as [|c s IH]; simpl; [reflexivity|].
  destruct (Py.is_space c) eqn:E; [exact IH|]. simpl. now rewrite E.
Qed.

Lemma lstrip_fixed (s : string) : no_lead s = true -> Py.lstrip s = s.
Proof.
  destruct s as [|c s]; simpl; [reflexivity|]. intro H.
  apply negb_true_iff in H. now rewrite H.
Qed.

Lemma no_lead_rstrip (s : string) : no_lead s = true -> no_lead (Py.rstrip s) = true.
Proof.
  destruct s as [|c s]; simpl; [reflexivity|]. intro H.
  apply negb_true_iff in H. rewrite H.
  destruct (Py.rstrip s); simpl; now rewrite H.
Qed.

Lemma rstrip_idem (s : string) : Py.rstrip (Py.rstrip s) = Py.rstrip s.
Proof.
  induction s as [|c s IH]; simpl; [reflexivity|].
  destruct (Py.rstrip s) as [|c' r'] eqn:E.
  - destruct (Py.is_space c) eqn:Hc; simpl; [reflexivity|now rewrite Hc].
  - simpl. simpl in IH. rewrite IH. reflexivity.
Qed.

Lemma strip_idem (s : string) : Py.strip (Py.strip s) = Py.strip s.
Proof.
  unfold Py.strip.
  rewrite (lstrip_fixed (Py.rstrip (Py.lstrip s))).
  - apply rstrip_idem.
  - apply no_lead_rstrip, no_lead_lstrip.
Qed.

Lemma strip_collapse_is_key (s : string) :
  all_chars not_upper s = true -> is_key (Py.strip (Py.collapse s)).
Proof.
  intro H. split; [|split].
  - apply all_chars_strip. now apply all_chars_collapse_go.
  - unfold Py.strip, Py.collapse. apply single_spaced_rstrip.
    apply single_spaced_weaken.
    apply (single_spaced_lstrip _ false). apply collapse_go_single_spaced.
  - apply strip_idem.
Qed.

Lemma key_strip_collapse (s : string) : is_key s -> Py.strip (Py.collapse s) = s.
Proof.
  intros (_ & H1 & H2). unfold Py.collapse. now rewrite collapse_go_fixed.
Qed.

(** *** Steps that leave a key alone *)

Lemma key_lower (s : string) : all_chars key_char s = true -> Py.lower s = s.
Proof.
  induction s as [|c s IH]; simpl; [reflexivity|]. intro H.
  apply andb_true_iff in H. destruct H as [Hc Hs].
  now rewrite (key_char_lower c Hc), IH.
Qed.

Lemma key_unbracket (s : string) :
  all_chars key_char s = true -> Py.unbracket s = s.
Proof.
  unfold Py.unbracket. induction s as [|c s IH]; simpl; [reflexivity|]. intro H.
  apply andb_true_iff in H. destruct H as [Hc Hs].
  now rewrite (key_char_not_open c Hc), IH.
Qed.

Lemma startswith_all_chars p (sep s : string) :
  all_chars p s = true -> Py.startswith sep s = true -> all_chars p sep = true.
Proof.
  revert s. induction sep as [|a sep IH]; intros s Hs H; [reflexivity|].
  destruct s as [|b s]; simpl in H; [discriminate|].
  apply andb_true_iff in H. destruct H as [Hab H].
  apply Ascii.eqb_eq in Hab. subst b. simpl in Hs.
  apply andb_true_iff in Hs. destruct Hs as [Ha Hs].
  simpl. rewrite Ha. now apply (IH s).
Qed.

Lemma contains_all_chars p (sep s : string) :
  all_chars p s = true -> Py.contains sep s = true -> all_chars p sep = true.
Proof.
  induction s as [|c s IH]; intros Hs H.
  - simpl in H. rewrite orb_false_r in H. now apply (startswith_all_chars p sep "").
  - simpl in H. apply orb_true_iff in H. destruct H as [H | H].
    + now apply (startswith_all_chars p sep (String c s)).
    + simpl in Hs. apply andb_true_iff in Hs. now apply IH.
Qed.

Lemma key_lacks (sep s : string) :
  all_chars key_char s = true -> all_chars key_char sep = false ->
  Py.contains sep s = false.
Proof.
  intros Hs Hsep. destruct (Py.contains sep s) eqn:E; [|reflexivity].
  rewrite (contains_all_chars key_char sep s Hs E) in Hsep. discriminate.
Qed.

Lemma contains_tail (sep : string) (c : ascii) (s : string) :
  Py.contains sep (String c s) = false ->
  Py.startswith sep (String c s) = false /\ Py.contains sep s = false.
Proof. simpl. intro H. now apply orb_false_iff in H. Qed.

Lemma split_head_absent (sep s : string) :
  Py.contains sep s = false -> Py.split_head sep s = s.
Proof.
  induction s as [|c s IH]; [reflexivity|]. intro H.
  apply contains_tail in H. destruct H as [H1 H2].
  simpl Py.split_head. rewrite H1. now rewrite IH.
Qed.

Lemma replace_absent (old new s : string) :
  Py.contains old s = false -> Py.replace old new s = s.
Proof.
  unfold Py.replace. induction s as [|c s IH]; [reflexivity|]. intro H.
  apply contains_tail in H. destruct H as [H1 H2].
  simpl Py.replace_go. rewrite H1. now rewrite IH.
Qed.
(** *** No step lengthens its input, and a dropped substring shortens it *)

Lemma length_app (a b : string) :
  String.length (a ++ b) = (String.length a + String.length b)%nat.
Proof. induction a as [|c a IH]; simpl; [reflexivity|now rewrite IH]. Qed.

Lemma startswith_length (p s : string) :
  Py.startswith p s = true -> (String.length p <= String.length s)%nat.
Proof.
  revert s. induction p as [|a p IH]; intros s H; simpl; [lia|].
  destruct s as [|b s]; simpl in H; [discriminate|].
  apply andb_true_iff in H. destruct H as [_ H]. apply IH in H. simpl. lia.
Qed.

Lemma replace_go_length (old new : string) :
  (String.length new <= String.length old)%nat ->
  forall (s : string) (k : nat),
    (String.length (Py.replace_go old new k s) + Nat.min k (String.length s)
     <= String.length s)%nat.
Proof.
  intros Hn. induction s as [|c s IH]; intro k; simpl; [lia|].
  destruct k as [|k].
  - destruct (Py.startswith old (String c s)) eqn:E.
    + apply startswith_length in E. simpl in E.
      rewrite length_app. specialize (IH (String.length old - 1)%nat). lia.
    + simpl. specialize (IH 0%nat). lia.
  - specialize (IH k). lia.
Qed.

Lemma replace_length (old new s : string) :
  (String.length new <= String.length old)%nat ->
  (String.length (Py.replace old new s) <= String.length s)%nat.
Proof.
  intro H. pose proof (replace_go_length old new H s 0). unfold Py.replace. lia.
Qed.

Lemma replace_shortens (old new s : string) :
  (String.length new < String.length old)%nat ->
  Py.contains old s = true ->
  (String.length (Py.replace old new s) < String.length s)%nat.
Proof.
  intros Hn. unfold Py.replace. induction s as [|c s IH]; intro H.
  - simpl in H. rewrite orb_false_r in H. apply startswith_length in H.
    simpl in H. lia.
  - simpl Py.replace_go. destruct (Py.startswith old (String c s)) eqn:E.
    + apply startswith_length in E. simpl in E. rewrite length_app.
      assert (Hle : (String.length new <= String.length old)%nat) by lia.
      pose proof (replace_go_length old new Hle s (String.length old - 1)).
      simpl. lia.
    + simpl in H. simpl in E. rewrite E in H. simpl in H.
      specialize (IH H). simpl. lia.
Qed.

Lemma split_head_length (sep s : string) :
  (String.length (Py.split_head sep s) <= String.length s)%nat.
Proof.
  induction s as [|c s IH]; simpl; [lia|].
  destruct (Py.startswith sep (String c s)); simpl; lia.
Qed.

Lemma split_head_shortens (sep s : string) :
  sep <> "" -> Py.contains sep s = true ->
  (String.length (Py.split_head sep s) < String.length s)%nat.
Proof.
  intros Hsep. induction s as [|c s IH]; intro H.
  - simpl in H. rewrite orb_false_r in H. destruct sep; [contradiction|discriminate].
  - simpl Py.split_head. destruct (Py.startswith sep (String c s)) eqn:E.
    + simpl. lia.
    + simpl in H. simpl in E. rewrite E in H. simpl in H.
      specialize (IH H). simpl. lia.
Qed.

Lemma lower_length (s : string) : String.length (Py.lower s) = String.length s.
Proof. induction s as [|c s IH]; simpl; [reflexivity|now rewrite IH]. Qed.

Lemma unbracket_go_length (s : string) :
  forall k, (String.length (Py.unbracket_go k s) <= String.length s)%nat.
Proof.
  induction s as [|c s IH]; intro k; simpl; [lia|].
  destruct k as [|k]; [|specialize (IH k); lia].
  destruct (Py.is_open c); [destruct (Py.close_dist s) as [n|]|]; simpl.
  - specialize (IH (S n)). lia.
  - specialize (IH 0%nat). lia.
  - specialize (IH 0%nat). lia.
Qed.

Lemma collapse_go_length (s : string) :
  forall b, (String.length (Py.collapse_go b s) <= String.length s)%nat.
Proof.
  induction s as [|c s IH]; intro b; simpl; [lia|].
  destruct (Py.is_word c); [|destruct b]; simpl.
  - specialize (IH false). lia.
  - specialize (IH true). lia.
  - specialize (IH true). lia.
Qed.

Lemma lstrip_length (s : string) :
  (String.length (Py.lstrip s) <= String.length s)%nat.
Proof.
  induction s as [|c s IH]; simpl; [lia|].
  destruct (Py.is_space c); simpl; lia.
Qed.

Lemma rstrip_length (s : string) :
  (String.length (Py.rstrip s) <= String.length s)%nat.
Proof.
  induction s as [|c s IH]; simpl; [lia|].
  destruct (Py.rstrip s); [destruct (Py.is_space c)|]; simpl in *; lia.
Qed.

Lemma strip_collapse_length (s : string) :
  (String.length (Py.strip (Py.collapse s)) <= String.length s)%nat.
Proof.
  unfold Py.strip, Py.collapse.
  pose proof (rstrip_length (Py.lstrip (Py.collapse_go false s))).
  pose proof (lstrip_length (Py.collapse_go false s)).
  pose proof (collapse_go_length s false). lia.
Qed.
(** *** The three normalizers *)

Lemma normalize_unfold (x : string) (k : field_kind) :
  normalize x k = match k with
                  | Title => clean_title x
                  | Artist => clean_artist x
                  | Album => clean_album x
                  end.
Proof. destruct k; reflexivity. Qed.

Lemma clean_title_is_key (x : string) : is_key (clean_title x).
Proof.
  unfold clean_title. apply strip_collapse_is_key.
  do 3 apply all_chars_split_head.
  apply all_chars_replace_go; [reflexivity|]. apply all_chars_lower.
Qed.

Lemma clean_artist_is_key (x : string) : is_key (clean_artist x).
Proof.
  unfold clean_artist. apply strip_collapse_is_key.
  do 5 apply all_chars_split_head.
  apply all_chars_replace_go; [reflexivity|]. apply all_chars_lower.
Qed.

Lemma clean_album_is_key (x : string) : is_key (clean_album x).
Proof.
  unfold clean_album. apply strip_collapse_is_key.
  apply all_chars_replace_go; [reflexivity|].
  apply all_chars_unbracket_go.
  apply all_chars_replace_go; [reflexivity|]. apply all_chars_lower.
Qed.

Lemma clean_title_fixed (y : string) :
  is_key y ->
  Py.contains "part " y = false -> Py.contains "the " y = false ->
  Py.contains "featuring" y = false ->
  clean_title y = y.
Proof.
  intros K H1 H2 H3. pose proof K as (Hc & _ & _). unfold clean_title.
  rewrite (key_unbracket y Hc), (replace_absent _ _ _ H1), (replace_absent _ _ _ H2),
    (key_lower y Hc), (replace_absent _ _ _ H3).
  rewrite !(split_head_absent _ y) by (apply key_lacks; [exact Hc|reflexivity]).
  now apply key_strip_collapse.
Qed.

Lemma clean_artist_fixed (y : string) :
  is_key y ->
  Py.contains "the " y = false -> Py.contains " featuring" y = false ->
  Py.contains " and " y = false -> Py.contains " vs" y = false ->
  clean_artist y = y.
Proof.
  intros K H1 H2 H3 H4. pose proof K as (Hc & _ & _). unfold clean_artist.
  rewrite (key_unbracket y Hc), (replace_absent _ _ _ H1),
    (key_lower y Hc), (replace_absent _ _ _ H2).
  rewrite !(split_head_absent _ y)
    by (first [apply key_lacks; [exact Hc|reflexivity] | assumption]).
  now apply key_strip_collapse.
Qed.

Lemma clean_album_fixed (y : string) :
  is_key y ->
  Py.contains "ep" y = false -> Py.contains "the " y = false ->
  clean_album y = y.
Proof.
  intros K H1 H2. pose proof K as (Hc & _ & _). unfold clean_album.
  rewrite (split_head_absent "-" y) by (apply key_lacks; [exact Hc|reflexivity]).
  rewrite (key_lower y Hc), (replace_absent _ _ _ H1), (key_unbracket y Hc),
    (replace_absent _ _ _ H2).
  now apply key_strip_collapse.
Qed.

Lemma split3_length (a b c t : string) :
  (String.length (Py.strip (Py.collapse
      (Py.split_head a (Py.split_head b (Py.split_head c t)))))
   <= String.length t)%nat.
Proof.
  pose proof (strip_collapse_length
                (Py.split_head a (Py.split_head b (Py.split_head c t)))).
  pose proof (split_head_length a (Py.split_head b (Py.split_head c t))).
  pose proof (split_head_length b (Py.split_head c t)).
  pose proof (split_head_length c t). lia.
Qed.

Lemma title_tail_length (t : string) :
  (String.length (Py.strip (Py.collapse
      (Py.split_head " / " (Py.split_head "ft." (Py.split_head "feat."
         (Py.replace "featuring" "" (Py.lower t)))))))
   <= String.length t)%nat.
Proof.
  pose proof (split3_length " / " "ft." "feat."
                (Py.replace "featuring" "" (Py.lower t))).
  pose proof (replace_length "featuring" "" (Py.lower t) ltac:(simpl; lia)).
  pose proof (lower_length t). lia.
Qed.

Lemma clean_title_shorter (y : string) :
  is_key y ->
  Py.contains "part " y = true \/ Py.contains "the " y = true
  \/ Py.contains "featuring" y = true ->
  (String.length (clean_title y) < String.length y)%nat.
Proof.
  intros (Hc & _ & _) H. unfold clean_title. rewrite (key_unbracket y Hc).
  destruct (Py.contains "part " y) eqn:E1.
  { pose proof (title_tail_length
                  (Py.replace "the " " " (Py.replace "part " " " y))).
    pose proof (replace_length "the " " " (Py.replace "part " " " y)
                  ltac:(simpl; lia)).
    pose proof (replace_shortens "part " " " y ltac:(simpl; lia) E1). lia. }
  rewrite (replace_absent _ _ _ E1).
  destruct (Py.contains "the " y) eqn:E2.
  { pose proof (title_tail_length (Py.replace "the " " " y)).
    pose proof (replace_shortens "the " " " y ltac:(simpl; lia) E2). lia. }
  rewrite (replace_absent _ _ _ E2), (key_lower y Hc).
  destruct H as [H | [H | H]]; try discriminate.
  pose proof (split3_length " / " "ft." "feat." (Py.replace "featuring" "" y)).
  pose proof (replace_shortens "featuring" "" y ltac:(simpl; lia) H). lia.
Qed.

Lemma split5_length (a b c d e t : string) :
  (String.length (Py.strip (Py.collapse
      (Py.split_head a (Py.split_head b (Py.split_head c
         (Py.split_head d (Py.split_head e t)))))))
   <= String.length t)%nat.
Proof.
  pose proof (split3_length a b c (Py.split_head d (Py.split_head e t))).
  pose proof (split_head_length d (Py.split_head e t)).
  pose proof (split_head_length e t). lia.
Qed.

Lemma artist_tail_length (t : string) :
  (String.length (Py.strip (Py.collapse
      (Py.split_head " vs" (Py.split_head " and " (Py.split_head "&"
         (Py.split_head " ft." (Py.split_head " feat."
            (Py.replace " featuring" "" (Py.lower t)))))))))
   <= String.length t)%nat.
Proof.
  pose proof (split5_length " vs" " and " "&" " ft." " feat."
                (Py.replace " featuring" "" (Py.lower t))).
  pose proof (replace_length " featuring" "" (Py.lower t) ltac:(simpl; lia)).
  pose proof (lower_length t). lia.
Qed.

Lemma clean_artist_shorter (y : string) :
  is_key y ->
  Py.contains "the " y = true \/ Py.contains " featuring" y = true
  \/ Py.contains " and " y = true \/ Py.contains " vs" y = true ->
  (String.length (clean_artist y) < String.length y)%nat.
Proof.
  intros (Hc & _ & _) H. unfold clean_artist. rewrite (key_unbracket y Hc).
  destruct (Py.contains "the " y) eqn:E1.
  { pose proof (artist_tail_length (Py.replace "the " " " y)).
    pose proof (replace_shortens "the " " " y ltac:(simpl; lia) E1). lia. }
  rewrite (replace_absent _ _ _ E1), (key_lower y Hc).
  destruct (Py.contains " featuring" y) eqn:E2.
  { pose proof (split5_length " vs" " and " "&" " ft." " feat."
                  (Py.replace " featuring" "" y)).
    pose proof (replace_shortens " featuring" "" y ltac:(simpl; lia) E2). lia. }
  rewrite (replace_absent _ _ _ E2).
  rewrite !(split_head_absent _ y) by (apply key_lacks; [exact Hc|reflexivity]).
  destruct (Py.contains " and " y) eqn:E3.
  { pose proof (strip_collapse_length
                  (Py.split_head " vs" (Py.split_head " and " y))).
    pose proof (split_head_length " vs" (Py.split_head " and " y)).
    pose proof (split_head_shortens " and " y ltac:(discriminate) E3). lia. }
  rewrite (split_head_absent _ y E3).
  destruct H as [H | [H | [H | H]]]; try discriminate.
  pose proof (strip_collapse_length (Py.split_head " vs" y)).
  pose proof (split_head_shortens " vs" y ltac:(discriminate) H). lia.
Qed.

Lemma clean_album_shorter (y : string) :
  is_key y ->
  Py.contains "ep" y = true \/ Py.contains "the " y = true ->
  (String.length (clean_album y) < String.length y)%nat.
Proof.
  intros (Hc & _ & _) H. unfold clean_album.
  rewrite (split_head_absent "-" y) by (apply key_lacks; [exact Hc|reflexivity]).
  rewrite (key_lower y Hc).
  destruct (Py.contains "ep" y) eqn:E1.
  { pose proof (strip_collapse_length
                  (Py.replace "the " " " (Py.unbracket (Py.replace "ep" "" y)))).
    pose proof (replace_length "the " " " (Py.unbracket (Py.replace "ep" "" y))
                  ltac:(simpl; lia)).
    pose proof (unbracket_go_length (Py.replace "ep" "" y) 0).
    fold (Py.unbracket (Py.replace "ep" "" y)) in *.
    pose proof (replace_shortens "ep" "" y ltac:(simpl; lia) E1). lia. }
  rewrite (replace_absent _ _ _ E1), (key_unbracket y Hc).
  destruct H as [H | H]; try discriminate.
  pose proof (strip_collapse_length (Py.replace "the " " " y)).
  pose proof (replace_shortens "the " " " y ltac:(simpl; lia) H). lia.
Qed.

(** C3, as stated, fails: the title "The Song" has the key "the song",
    whose own key is "song". *)
Lemma C3_counterexample :
  ~ (forall (x : string) (k : field_kind),
        normalize (normalize x k) k = normalize x k).
Proof.
  intro H. specialize (H "The Song" Title). vm_compute in H. discriminate.
Qed.

(** C3, amended. Normalizing a key again returns it unchanged exactly
    when the key contains none of the substrings that the normalizer of
    its kind removes or cuts at ("part ", "the ", "featuring" for a
    title; "the ", " featuring", " and ", " vs" for an artist; "ep",
    "the " for an album). *)
Theorem C3_normalize_idempotent_iff :
  forall (x : string) (k : field_kind),
    normalize (normalize x k) k = normalize x k
    <-> free_of_dropped k (normalize x k) = true.
Proof.
  intros x k. rewrite !normalize_unfold. unfold free_of_dropped.
  destruct k; simpl forallb; cbv beta.
  - pose proof (clean_title_is_key x) as K. set (y := clean_title x) in *.
    destruct (Py.contains "part " y) eqn:E1, (Py.contains "the " y) eqn:E2,
      (Py.contains "featuring" y) eqn:E3; simpl;
      try (split; [intro H|discriminate];
           assert (L : (String.length (clean_title y) < String.length y)%nat)
             by (apply clean_title_shorter; auto);
           rewrite H in L; lia).
    split; [reflexivity|]. intros _. now apply clean_title_fixed.
  - pose proof (clean_artist_is_key x) as K. set (y := clean_artist x) in *.
    destruct (Py.contains "the " y) eqn:E1, (Py.contains " featuring" y) eqn:E2,
      (Py.contains " and " y) eqn:E3, (Py.contains " vs" y) eqn:E4; simpl;
      try (split; [intro H|discriminate];
           assert (L : (String.length (clean_artist y) < String.length y)%nat)
             by (apply clean_artist_shorter; auto);
           rewrite H in L; lia).
    split; [reflexivity|]. intros _. now apply clean_artist_fixed.
  - pose proof (clean_album_is_key x) as K. set (y := clean_album x) in *.
    destruct (Py.contains "ep" y) eqn:E1, (Py.contains "the " y) eqn:E2; simpl;
      try (split; [intro H|discriminate];
           assert (L : (String.length (clean_album y) < String.length y)%nat)
             by (apply clean_album_shorter; auto);
           rewrite H in L; lia).
    split; [reflexivity|]. intros _. now apply clean_album_fixed.
Qed.

(** An instance of C3: the key "song" holds no dropped substring. *)
Lemma C3_witness :
  normalize (normalize "Song (Live) feat. Someone" Title) Title
  = normalize "Song (Live) feat. Someone" Title.
Proof.
  apply (proj2 (C3_normalize_idempotent_iff "Song (Live) feat. Someone" Title)).
  reflexivity.
Defined.

Example normalize_examples :
  normalize "Song (Live) feat. Someone" Title = "song"
  /\ normalize "The Beatles" Artist = "the beatles"
  /\ normalize (normalize "The Beatles" Artist) Artist = "beatles"
  /\ normalize "eepp" Album = "ep"
  /\ normalize (normalize "eepp" Album) Album = "".
Proof. repeat split. Qed.

(** * Further properties of the code *)

(** ** More on the normalizer *)

Lemma lower_char_nonword (c : ascii) :
  nonword c = true -> nonword (Py.lower_char c) = true.
Proof. ascii_cases c. Qed.

Lemma lower_char_idem (c : ascii) : Py.lower_char (Py.lower_char c) = Py.lower_char c.
Proof. ascii_cases c. Qed.

Lemma lower_char_hyphen (c : ascii) :
  Ascii.eqb "-" (Py.lower_char c) = Ascii.eqb "-" c.
Proof. ascii_cases c. Qed.

Lemma all_chars_lower_nonword (s : string) :
  all_chars nonword s = true -> all_chars nonword (Py.lower s) = true.
Proof.
  induction s as [|c s IH]; simpl; [reflexivity|]. intro H.
  apply andb_true_iff in H. destruct H as [Hc Hs].
  now rewrite (lower_char_nonword c Hc), IH.
Qed.

Lemma collapse_go_nonword (s : string) :
  all_chars nonword s = true ->
  Py.collapse_go true s = ""
  /\ (Py.collapse_go false s = "" \/ Py.collapse_go false s = " ").
Proof.
  induction s as [|c s IH]; simpl; [auto|]. intro H.
  apply andb_true_iff in H. destruct H as [Hc Hs].
  unfold nonword in Hc. apply negb_true_iff in Hc. rewrite Hc.
  destruct (IH Hs) as [E _]. rewrite E. auto.
Qed.

Lemma strip_collapse_nonword (s : string) :
  all_chars nonword s = true -> Py.strip (Py.collapse s) = "".
Proof.
  intro H. unfold Py.collapse.
  destruct (proj2 (collapse_go_nonword s H)) as [-> | ->]; reflexivity.
Qed.

Lemma lower_idem (s : string) : Py.lower (Py.lower s) = Py.lower s.
Proof.
  induction s as [|c s IH]; simpl; [reflexivity|].
  now rewrite lower_char_idem, IH.
Qed.

Lemma split_head_hyphen_lower (s : string) :
  Py.split_head "-" (Py.lower s) = Py.lower (Py.split_head "-" s).
Proof.
  induction s as [|c s IH]; [reflexivity|].
  cbn [Py.split_head Py.lower Py.startswith]. rewrite lower_char_hyphen.
  replace (Py.startswith "" (Py.lower s)) with true by (now destruct (Py.lower s)).
  replace (Py.startswith "" s) with true by (now destruct s).
  destruct (Ascii.eqb "-" c); cbn [andb Py.lower]; [reflexivity|].
  now rewrite IH.
Qed.

(** X1. Whatever the input, a key has only lower-case letters, digits,
    apostrophes and spaces, has no two spaces in a row, and has no white
    space at either end. *)
Theorem normalize_key_shape :
  forall (x : string) (k : field_kind),
    all_chars key_char (normalize x k) = true
    /\ single_spaced false (normalize x k) = true
    /\ Py.strip (normalize x k) = normalize x k.
Proof.
  intros x k. rewrite normalize_unfold.
  destruct k; [apply clean_title_is_key|apply clean_artist_is_key|apply clean_album_is_key].
Qed.


(** X3. A text without any letter, digit or apostrophe has the empty
    key, for each kind of field. *)
Theorem normalize_without_word_chars :
  forall (x : string) (k : field_kind),
    all_chars nonword x = true -> normalize x k = "".
Proof.
  intros x k H. rewrite normalize_unfold. destruct k.
  - unfold clean_title. apply strip_collapse_nonword.
    do 3 apply all_chars_split_head.
    apply all_chars_replace_go; [reflexivity|]. apply all_chars_lower_nonword.
    do 2 (apply all_chars_replace_go; [reflexivity|]).
    now apply all_chars_unbracket_go.
  - unfold clean_artist. apply strip_collapse_nonword.
    do 5 apply all_chars_split_head.
    apply all_chars_replace_go; [reflexivity|]. apply all_chars_lower_nonword.
    apply all_chars_replace_go; [reflexivity|].
    now apply all_chars_unbracket_go.
  - unfold clean_album. apply strip_collapse_nonword.
    apply all_chars_replace_go; [reflexivity|]. apply all_chars_unbracket_go.
    apply all_chars_replace_go; [reflexivity|]. apply all_chars_lower_nonword.
    now apply all_chars_split_head.
Qed.

(** An instance of X3. *)
Lemma normalize_without_word_chars_witness : normalize "?!? - (...)" Artist = "".
Proof.
  apply (normalize_without_word_chars "?!? - (...)" Artist). reflexivity.
Defined.

(** X4. The key of an album does not depend on the case of its letters;
    the keys of a title and of an artist do, because "the " and "part "
    are dropped before the text is lower-cased. *)
Theorem normalize_album_ignores_case :
  (forall x : string, normalize (Py.lower x) Album = normalize x Album)
  /\ normalize (Py.lower "The Song") Title <> normalize "The Song" Title
  /\ normalize (Py.lower "The Band") Artist <> normalize "The Band" Artist.
Proof.
  split; [|split; vm_compute; discriminate].
  intro x. rewrite !normalize_unfold. unfold clean_album.
  now rewrite split_head_hyphen_lower, lower_idem.
Qed.

(** ** More on Phase 1 *)

Lemma digit_value_range (c : ascii) :
  Py.is_digit c = true -> (0 <= Z.of_nat (nat_of_ascii c) - 48 <= 9)%Z.
Proof.
  destruct c as [[] [] [] [] [] [] [] []]; intro H; vm_compute in H;
    try discriminate H; vm_compute; split; discriminate.
Qed.

Lemma digits_value_range (s : string) :
  forall acc : Z,
    all_chars Py.is_digit s = true -> (0 <= acc)%Z ->
    (0 <= Py.digits_value acc s
     <= acc * 10 ^ Z.of_nat (String.length s)
        + 10 ^ Z.of_nat (String.length s) - 1)%Z.
Proof.
  induction s as [|c s IH]; intros acc H Ha.
  - simpl. lia.
  - simpl in H. apply andb_true_iff in H. destruct H as [Hc Hs].
    pose proof (digit_value_range c Hc) as Hd.
    cbn [Py.digits_value String.length].
    specialize (IH (10 * acc + (Z.of_nat (nat_of_ascii c) - 48))%Z Hs ltac:(lia)).
    rewrite Nat2Z.inj_succ, Z.pow_succ_r by lia.
    assert (Hp : (0 < 10 ^ Z.of_nat (String.length s))%Z)
      by (apply Z.pow_pos_nonneg; lia).
    set (P := (10 ^ Z.of_nat (String.length s))%Z) in *.
    set (d := (Z.of_nat (nat_of_ascii c) - 48)%Z) in *.
    assert (Hm : (d * P <= 9 * P)%Z) by (apply Z.mul_le_mono_nonneg_r; lia).
    clearbody P d. lia.
Qed.

Lemma all_chars_digits_only (s : string) :
  all_chars Py.is_digit (Py.digits_only s) = true.
Proof.
  induction s as [|c s IH]; simpl; [reflexivity|].
  destruct (Py.is_digit c) eqn:E; simpl; [now rewrite E|exact IH].
Qed.

Lemma all_chars_take p (n : nat) (s : string) :
  all_chars p s = true -> all_chars p (Py.take n s) = true.
Proof.
  revert s. induction n as [|n IH]; intros s H; [reflexivity|].
  destruct s as [|c s]; [reflexivity|]. simpl in *.
  apply andb_true_iff in H. destruct H as [Hc Hs]. now rewrite Hc, IH.
Qed.

Lemma take_length (n : nat) (s : string) : (String.length (Py.take n s) <= n)%nat.
Proof.
  revert s. induction n as [|n IH]; intros s; [simpl; lia|].
  destruct s as [|c s]; simpl; [lia|]. specialize (IH s). lia.
Qed.

(** X5. The release year that Phase 1 reads from a candidate is the
    number written by the first four digits of its release date, so it
    lies between 0 and 9999; reading it raises [ValueError] exactly when
    the date has no digit. *)
Theorem release_year_range :
  forall t : track,
    (forall year, release_year t = Ok year -> (0 <= year <= 9999)%Z)
    /\ (release_year t = Raise ValueError
        <-> Py.digits_only (album_release_date (track_album t)) = "").
Proof.
  intro t. unfold release_year, int_of_digits.
  set (d := Py.digits_only (album_release_date (track_album t))).
  split.
  - intros year H.
    assert (Hd : all_chars Py.is_digit (Py.take 4 d) = true)
      by apply all_chars_take, all_chars_digits_only.
    pose proof (take_length 4 d) as Hl.
    pose proof (digits_value_range (Py.take 4 d) 0 Hd ltac:(lia)) as R.
    destruct (Py.take 4 d) eqn:E; [discriminate|].
    inversion H; subst year.
    assert (Hp : (10 ^ Z.of_nat (String.length (String a s)) <= 10 ^ 4)%Z)
      by (apply Z.pow_le_mono_r; lia).
    change (10 ^ 4)%Z with 10000%Z in Hp.
    set (P := (10 ^ Z.of_nat (String.length (String a s)))%Z) in *.
    change (Py.digits_value 0 (String a s))
      with (Py.digits_value (Z.of_nat (nat_of_ascii a) - 48) s) in R.
    clearbody P. lia.
  - destruct d as [|c d]; simpl; split; intro H; try reflexivity; discriminate.
Qed.

(** An instance of X5. *)
Lemma release_year_range_witness : (0 <= 2020 <= 9999)%Z.
Proof.
  apply (proj1 (release_year_range
                  (mk_track "Song" "Artist A" "Album X" "2020-05-01" 205000 "u"))).
  reflexivity.
Defined.

(** X6. Phase 1 stops with [ValueError] at the first candidate whose
    release date has no digit, when every candidate before it was passed
    over, whatever the other signals of that candidate are. *)
Theorem strong_match_raises_on_undated :
  forall (sg : song) (pre post : list track) (t : track),
    Forall (strong_rejects sg) pre ->
    Py.digits_only (album_release_date (track_album t)) = "" ->
    strong_match sg (pre ++ t :: post) = Raise ValueError.
Proof.
  intros sg pre post t Hpre Ht.
  induction Hpre as [|p l Hp _ IH]; simpl app.
  - simpl. unfold release_year. rewrite Ht. reflexivity.
  - now rewrite strong_match_step_reject.
Qed.

(** An instance of X6: the undated candidate has the duration of the song. *)
Lemma strong_match_raises_on_undated_witness :
  strong_match sample_song ([karaoke_track] ++ undated_track :: [timed_track])
  = Raise ValueError.
Proof.
  apply (strong_match_raises_on_undated sample_song [karaoke_track] [timed_track]
           undated_track); [|reflexivity].
  constructor; [|constructor]. exists 2020%Z. split; [reflexivity|].
  left. reflexivity.
Defined.

(** X7. When Phase 1 returns a song, the song is the given one with only
    its uri changed, to the uri of a candidate that qualifies and before
    which every candidate was passed over. *)
Theorem strong_match_inversion :
  forall (sg sg' : song) (tracks : list track),
    strong_match sg tracks = Ok (Some sg') ->
    exists pre t post,
      tracks = (pre ++ t :: post)%list
      /\ Forall (strong_rejects sg) pre
      /\ strong_qualifies sg t
      /\ sg' = set_uri sg (Uri (track_uri t)).
Proof.
  intros sg sg' tracks. induction tracks as [|t rest IH]; [discriminate|].
  simpl. destruct (release_year t) as [y|e] eqn:Hy; simpl; [|discriminate].
  fold (karaoke_guard t).
  destruct (time_match sg t) eqn:H1, (album_match sg t) eqn:H2,
    (song_year sg =? y)%Z eqn:H3, (karaoke_guard t) eqn:H4; simpl; intro H;
    try (inversion H; exists [], t, rest;
         split; [reflexivity|]; split; [constructor|];
         split; [|reflexivity];
         exists y; split; [exact Hy|]; split; [exact H4|];
         first [left; assumption | right; left; assumption
               | right; right; now apply Z.eqb_eq]);
    (destruct (IH H) as (pre & t' & post & -> & Hpre & Ht' & ->);
     exists (t :: pre), t', post; split; [reflexivity|];
     split; [|split; [exact Ht'|reflexivity]];
     constructor; [|exact Hpre];
     exists y; split; [exact Hy|]; try (left; assumption);
     right; apply Z.eqb_neq in H3; auto).
Qed.

(** An instance of X7. *)
Lemma strong_match_inversion_witness :
  exists pre t post,
    [karaoke_track; timed_track] = (pre ++ t :: post)%list
    /\ Forall (strong_rejects sample_song) pre
    /\ strong_qualifies sample_song t
    /\ set_uri sample_song (Uri "spotify:track:t")
       = set_uri sample_song (Uri (track_uri t)).
Proof.
  apply (strong_match_inversion sample_song
           (set_uri sample_song (Uri "spotify:track:t"))
           [karaoke_track; timed_track]).
  reflexivity.
Defined.

(** X8. Phase 1 never reads the title or the artist of the song: with
    other values for them it raises, returns [None] or selects the very
    same candidate. *)
Theorem strong_match_ignores_title_and_artist :
  forall (sg : song) (title artist : string) (tracks : list track),
    strong_match (retitle sg title artist) tracks
    = match strong_match sg tracks with
      | Ok (Some sg') => Ok (Some (retitle sg' title artist))
      | Ok None => Ok None
      | Raise e => Raise e
      end.
Proof.
  intros sg title artist tracks. induction tracks as [|t rest IH]; [reflexivity|].
  simpl. destruct (release_year t) as [y|e]; simpl; [|reflexivity].
  change (time_match (retitle sg title artist) t) with (time_match sg t).
  change (album_match (retitle sg title artist) t) with (album_match sg t).
  destruct ((time_match sg t || album_match sg t || (song_year sg =? y)%Z)
            && strong_artists (album_not_karaoke t) (track_artists t));
    [reflexivity|exact IH].
Qed.

(** ** More on Phase 2 *)

Lemma weak_match_loop_step (title artist : string) (t : track) (rest : list track)
      (m : Q) (sg : song) :
  weak_match_loop title artist (t :: rest) m sg
  = if weak_signals title artist t && Qlt_bool (length_diff sg t) m
    then weak_match_loop title artist rest (length_diff sg t)
           (set_uri sg (Uri (track_uri t)))
    else weak_match_loop title artist rest m sg.
Proof.
  simpl. unfold weak_signals. destruct (weak_flags artist t) as [am nk]. simpl.
  destruct (am || title_match title t), nk, (Qlt_bool (length_diff sg t) m);
    reflexivity.
Qed.




(** X10. With the empty artist key every candidate has [artist_match]
    true, and the artist loop stops at the first artist: the candidate
    passes the signals of Phase 2 exactly when its album name and its
    first artist pass the guard. *)
Theorem weak_signals_empty_artist :
  forall (title : string) (t : track),
    fst (weak_flags "" t) = true
    /\ weak_signals title "" t
       = album_not_karaoke t
         && match track_artists t with
            | [] => true
            | artist_ :: _ => artist_not_karaoke artist_
            end.
Proof.
  intros title t. unfold weak_signals, weak_flags.
  destruct (track_artists t) as [|a rest]; simpl.
  - split; [reflexivity|]. now rewrite andb_true_r.
  - unfold all_words_in. simpl. rewrite contains_empty. simpl.
    split; reflexivity.
Qed.

(** X11. Phase 2 changes nothing but the uri of the song, returns the uri
    the song ends with, and a uri it sets is that of a candidate of the
    list that qualifies. *)
Theorem weak_match_inversion :
  forall (sg : song) (tracks : list track) (title artist : string),
    snd (weak_match sg tracks title artist)
    = uri_get (song_uri (fst (weak_match sg tracks title artist)))
    /\ (fst (weak_match sg tracks title artist) = sg
        \/ exists t, In t tracks
                     /\ weak_qualifies sg title artist t
                     /\ fst (weak_match sg tracks title artist)
                        = set_uri sg (Uri (track_uri t))).
Proof.
  intros sg tracks title artist. split; [reflexivity|].
  unfold weak_match. simpl fst.
  assert (G : forall m s,
             weak_match_loop title artist tracks m s = s
             \/ exists t, In t tracks /\ weak_signals title artist t = true
                          /\ (length_diff s t < m)%Q
                          /\ weak_match_loop title artist tracks m s
                             = set_uri s (Uri (track_uri t))).
  { induction tracks as [|t rest IH]; intros m s; [now left|].
    rewrite weak_match_loop_step.
    destruct (weak_signals title artist t) eqn:Hs; simpl.
    - destruct (Qlt_bool (length_diff s t) m) eqn:Hl.
      + apply Qlt_bool_iff in Hl. right.
        destruct (IH (length_diff s t) (set_uri s (Uri (track_uri t))))
          as [E | (t' & Hin & Hs' & Hl' & E)].
        * exists t. rewrite E. split; [now left|auto].
        * exists t'. rewrite E. split; [now right|]. split; [exact Hs'|].
          split; [|reflexivity]. eapply Qlt_trans; [exact Hl'|exact Hl].
      + destruct (IH m s) as [E | (t' & Hin & Hs' & Hl' & E)]; [now left|].
        right. exists t'. split; [now right|auto].
    - destruct (IH m s) as [E | (t' & Hin & Hs' & Hl' & E)]; [now left|].
      right. exists t'. split; [now right|auto]. }
  destruct (G 600 sg) as [E | (t & Hin & Hs & Hl & E)]; [now left|].
  right. exists t. split; [exact Hin|]. split; [now split|exact E].
Qed.

(** ** More on the resolution of one song *)

Lemma set_uri_same (sg : song) : set_uri sg (song_uri sg) = sg.
Proof. now destruct sg. Qed.

Lemma weak_match_loop_frame (title artist : string) (tracks : list track) :
  forall (m : Q) (sg : song),
    weak_match_loop title artist tracks m sg
    = set_uri sg (song_uri (weak_match_loop title artist tracks m sg)).
Proof.
  induction tracks as [|t rest IH]; intros m sg.
  - simpl. now rewrite set_uri_same.
  - rewrite weak_match_loop_step.
    destruct (weak_signals title artist t && Qlt_bool (length_diff sg t) m).
    + rewrite (IH (length_diff sg t) (set_uri sg (Uri (track_uri t)))) at 1.
      reflexivity.
    + apply IH.
Qed.

Lemma strong_match_frame (sg sg' : song) (tracks : list track) :
  strong_match sg tracks = Ok (Some sg') -> sg' = set_uri sg (song_uri sg').
Proof.
  intro H. apply strong_match_album_guard in H.
  destruct H as (t & _ & -> & _). reflexivity.
Qed.

Lemma get_uri_frame :
  forall (W : Type) (search : string -> W -> list track * W)
         (sg sg' : song) (w w' : W),
    get_uri W search sg w = Ok (sg', w') ->
    sg' = set_uri sg (song_uri sg').
Proof.
  intros W search sg sg' w w'. unfold get_uri. rewrite clean_tags_all.
  destruct (first_results W search _ _ _ w) as [results w1].
  destruct (strong_match sg results) as [[s1|]|e] eqn:E1; simpl;
    [| |discriminate].
  { intro H. inversion H; subst. eapply strong_match_frame; eauto. }
  destruct (search _ w1) as [results_title w2].
  destruct (strong_match sg results_title) as [[s2|]|e] eqn:E2; simpl;
    [| |discriminate].
  { intro H. inversion H; subst. eapply strong_match_frame; eauto. }
  unfold weak_match.
  set (s3 := weak_match_loop _ _ results 600 sg).
  assert (F3 : s3 = set_uri sg (song_uri s3)) by apply weak_match_loop_frame.
  destruct (uri_get (song_uri s3)).
  { intro H. inversion H; subst. exact F3. }
  intro H. inversion H; subst.
  match goal with |- ?L = _ => set (s4 := L) end.
  assert (F4 : s4 = set_uri s3 (song_uri s4)) by apply weak_match_loop_frame.
  rewrite F4 at 1. rewrite F3. reflexivity.
Qed.

(** X12. [get_uri] changes nothing but the uri of the song: position,
    title, artist, album, year, length and the other keys are those it
    was given. *)
Theorem get_uri_changes_only_uri :
  forall (W : Type) (search : string -> W -> list track * W)
         (sg sg' : song) (w w' : W),
    get_uri W search sg w = Ok (sg', w') ->
    sg' = set_uri sg (song_uri sg').
Proof. exact get_uri_frame. Qed.

(** An instance of X12 on the sample catalog. *)
Lemma get_uri_changes_only_uri_witness :
  set_uri sample_song (Uri "spotify:track:late")
  = set_uri sample_song
      (song_uri (set_uri sample_song (Uri "spotify:track:late"))).
Proof.
  apply (get_uri_changes_only_uri unit sample_search sample_song
           (set_uri sample_song (Uri "spotify:track:late")) tt tt).
  reflexivity.
Defined.

(** One step of the case analysis on a run of [get_uri]. *)
Ltac run_step search sg :=
  match goal with
  | |- context [?b && false] => rewrite (andb_false_r b)
  | |- context [?b && true] => rewrite (andb_true_r b)
  | |- context [search ?q ?x] => destruct (search q x) as [? ?]
  | |- context [if is_empty ?r then _ else _] => destruct (is_empty r)
  | |- context [strong_match sg ?r] =>
      destruct (strong_match sg r) as [[?|]|?]
  | |- context [match uri_get ?u with _ => _ end] => destruct (uri_get u)
  end; cbn [fst snd bind andb negb].

(** The end of a branch: the log is read off the final state. *)
Ltac run_done :=
  let H := fresh "H" in
  intro H; inversion H; subst;
  eexists; (split; [reflexivity|]); cbn [List.length app];
  (split; [lia|]);
  split; [repeat (apply Forall_cons || apply Forall_nil); auto|].

(** X13. The queries [get_uri] sends: the first is always
    "title artist"; at most three more follow, each "title album" or the
    title alone; and for an album whose key starts with "downloads"
    every query after the first is the title alone. *)
Theorem get_uri_queries :
  forall (W : Type) (search : string -> W -> list track * W)
         (sg sg' : song) (w w' : W) (log : list string),
    let title := clean_title (song_title sg) in
    let artist := clean_artist (song_artist sg) in
    let album := clean_album (song_album sg) in
    get_uri (W * list string) (logged search) sg (w, []) = Ok (sg', (w', log)) ->
    exists rest,
      log = (title ++ " " ++ artist) :: rest
      /\ (List.length rest <= 3)%nat
      /\ Forall (fun q => q = title ++ " " ++ album \/ q = title) rest
      /\ (Py.take 9 album = "downloads" -> Forall (fun q => q = title) rest).
Proof.
  intros W search sg sg' w w' log title artist album.
  unfold get_uri. rewrite clean_tags_all. simpl tag_title. simpl tag_artist.
  simpl tag_album. fold title artist album.
  unfold first_results, logged, weak_match. cbn [fst snd].
  destruct (String.eqb (Py.take 9 album) "downloads") eqn:Ed.
  - apply String.eqb_eq in Ed.
    repeat run_step search sg; try discriminate; run_done;
      intros _; repeat (apply Forall_cons || apply Forall_nil); reflexivity.
  - assert (Hd : Py.take 9 album <> "downloads")
      by (intro Hc; rewrite Hc in Ed; discriminate).
    repeat run_step search sg; try discriminate; run_done;
      intro Hc; now destruct (Hd Hc).
Qed.

(** An instance of X13: a catalog that finds nothing is asked twice for
    the title alone, and never for the album "downloads". *)
Lemma get_uri_queries_witness :
  exists rest,
    ["song artist a"; "song"; "song"] = ("song" ++ " " ++ "artist a") :: rest
    /\ (List.length rest <= 3)%nat
    /\ Forall (fun q => q = "song" ++ " " ++ "downloads" \/ q = "song") rest
    /\ (Py.take 9 "downloads" = "downloads" -> Forall (fun q => q = "song") rest).
Proof.
  apply (get_uri_queries unit silent_search sample_song sample_song tt tt
           ["song artist a"; "song"; "song"]).
  reflexivity.
Defined.

(** ** The search over all playlists *)

Section SearchAllFacts.

Variable W : Type.
Variable search : string -> W -> list track * W.

Lemma get_uris_searched (songs rs : list song) (w w' : W) :
  get_uris W search songs w = Ok (rs, w') -> Forall2 searched songs rs.
Proof.
  revert rs w. induction songs as [|s songs IH]; intros rs w; simpl.
  - intro H. inversion H. constructor.
  - destruct (get_uri W search s w) as [[r w1]|e] eqn:G; simpl; [|discriminate].
    destruct (get_uris W search songs w1) as [[rs' w2]|e] eqn:Gs; simpl;
      [|discriminate].
    intro H. inversion H; subst. constructor.
    + split.
      * eapply get_uri_frame; eauto.
      * eapply get_uri_keeps_or_sets; eauto.
    + eapply IH; eauto.
Qed.

Lemma mark_missing_searched (s r : song) :
  unsearched s = true -> searched s r ->
  has_uri (song_uri (mark_missing r)) = true
  /\ mark_missing r = set_uri s (song_uri (mark_missing r))
  /\ uri_is_null (mark_missing r) = unsearched r
  /\ (unsearched r = true -> song_uri (mark_missing r) = Null).
Proof.
  unfold unsearched, searched, mark_missing, uri_is_null.
  intros Hs [Hf Hu]. destruct (song_uri s) eqn:Es; try discriminate.
  destruct Hu as [Hu | (u & Hu)]; rewrite Hu; simpl.
  - repeat split. rewrite Hf. reflexivity.
  - rewrite Hu. split; [reflexivity|]. split; [now rewrite Hu in Hf|].
    split; [reflexivity|discriminate].
Qed.

Lemma marked_results (songs rs : list song) :
  Forall (fun s => unsearched s = true) songs ->
  Forall2 searched songs rs ->
  Forall (fun r => has_uri (song_uri r) = true) (map mark_missing rs)
  /\ Forall2 (fun s r => r = set_uri s (song_uri r)) songs (map mark_missing rs)
  /\ map mark_missing (filter (fun sg => negb (has_uri (song_uri sg))) rs)
     = filter uri_is_null (map mark_missing rs)
  /\ Forall (fun r => song_uri r = Null)
            (map mark_missing (filter (fun sg => negb (has_uri (song_uri sg))) rs)).
Proof.
  intros Hs H. induction H as [|s r songs rs Hsr _ IH]; simpl.
  - repeat split; constructor.
  - inversion Hs as [|? ? Hs1 Hs2]; subst.
    destruct (IH Hs2) as (I1 & I2 & I3 & I4).
    destruct (mark_missing_searched s r Hs1 Hsr) as (M1 & M2 & M3 & M4).
    rewrite M3. fold (unsearched r).
    split; [now constructor|]. split; [now constructor|].
    destruct (unsearched r) eqn:Eu; simpl.
    + split; [now rewrite I3|]. constructor; [now apply M4|exact I4].
    + split; [exact I3|exact I4].
Qed.

Lemma filter_unsearched_all (songs : list song) :
  Forall (fun s => unsearched s = true) (filter unsearched songs).
Proof.
  apply Forall_forall. intros s H. now apply filter_In in H.
Qed.

Lemma search_all_loop_spec (m3u : list (string * list song)) :
  forall (w w' : W) (results missing : list (string * list song)),
    search_all_loop W search m3u w = Ok (results, missing, w') ->
    Forall2 (fun p r => fst r = fst p
                        /\ Forall2 (fun s x => x = set_uri s (song_uri x))
                                   (snd p) (snd r))
            (to_search m3u) results
    /\ Forall (fun r => Forall (fun x => has_uri (song_uri x) = true) (snd r))
              results
    /\ Forall2 (fun r m => fst m = fst r
                           /\ snd m = filter uri_is_null (snd r))
               results missing
    /\ Forall (fun m => Forall (fun x => song_uri x = Null) (snd m)) missing.
Proof.
  induction m3u as [|[name songs] rest IH]; intros w w' results missing.
  - simpl. intro H. inversion H. repeat split; constructor.
  - simpl search_all_loop. unfold to_search. simpl map. simpl filter.
    fold (to_search rest). fold unsearched.
    change (fun sg : song => negb (has_uri (song_uri sg))) with unsearched.
    destruct (is_empty (filter unsearched songs)) eqn:Ee; simpl negb; cbv iota.
    + apply IH.
    + destruct (get_uris W search (filter unsearched songs) w) as [[rs w1]|e] eqn:G;
        simpl; [|discriminate].
      destruct (search_all_loop W search rest w1) as [[[res mis] w2]|e] eqn:L;
        simpl; [|discriminate].
      intro H. inversion H; subst.
      destruct (IH _ _ _ _ L) as (I1 & I2 & I3 & I4).
      apply get_uris_searched in G.
      destruct (marked_results _ _ (filter_unsearched_all songs) G)
        as (M1 & M2 & M3 & M4).
      split; [constructor; [split; [reflexivity|exact M2]|exact I1]|].
      split; [constructor; [exact M1|exact I2]|].
      split; [constructor; [split; [reflexivity|exact M3]|exact I3]|].
      constructor; [exact M4|exact I4].
Qed.

(** X14. What [search_all] returns. Its results list, in order, the
    playlists that had a song without the ['uri'] key, each with exactly
    those songs, unchanged but for the uri; every song of the results has
    the ['uri'] key; the missing songs of a playlist are the songs of its
    results whose uri is [None]. *)
Theorem search_all_results :
  forall (m3u results missing : list (string * list song)) (w w' : W),
    search_all W search m3u w = Ok (results, missing, w') ->
    Forall2 (fun p r => fst r = fst p
                        /\ Forall2 (fun s x => x = set_uri s (song_uri x))
                                   (snd p) (snd r))
            (to_search m3u) results
    /\ Forall (fun r => Forall (fun x => has_uri (song_uri x) = true) (snd r))
              results
    /\ Forall2 (fun r m => fst m = fst r
                           /\ snd m = filter uri_is_null (snd r))
               results missing.
Proof.
  intros m3u results missing w w'. unfold search_all.
  destruct (is_empty m3u); [discriminate|]. intro H.
  destruct (search_all_loop_spec m3u w w' results missing H) as (H1 & H2 & H3 & _).
  auto.
Qed.

Lemma search_all_loop_nothing (m3u : list (string * list song)) (w : W) :
  Forall (fun p => Forall (fun s => has_uri (song_uri s) = true) (snd p)) m3u ->
  search_all_loop W search m3u w = Ok ([], [], w).
Proof.
  induction 1 as [|[name songs] rest Hp _ IH]; [reflexivity|].
  simpl. simpl in Hp.
  assert (E : filter (fun sg => negb (has_uri (song_uri sg))) songs = []).
  { induction Hp as [|s l Hs _ IHl]; [reflexivity|]. simpl. now rewrite Hs. }
  rewrite E. exact IH.
Qed.

(** X15. [search_all] raises [ValueError] on an empty mapping; and when
    every song of every playlist already has the ['uri'] key (even with
    value [None]) it sends no query and returns two empty mappings. *)
Theorem search_all_nothing_to_search :
  (forall w, search_all W search [] w = Raise ValueError)
  /\ (forall (m3u : list (string * list song)) (w : W),
         m3u <> [] ->
         Forall (fun p => Forall (fun s => has_uri (song_uri s) = true) (snd p))
                m3u ->
         search_all W search m3u w = Ok ([], [], w)).
Proof.
  split; [reflexivity|]. intros m3u w Hne H. unfold search_all.
  destruct m3u; [contradiction|]. simpl is_empty. cbv iota.
  now apply search_all_loop_nothing.
Qed.

End SearchAllFacts.

(** An instance of X14: the song with garbage title, every candidate from
    a karaoke album. *)
Lemma search_all_results_witness :
  Forall2 (fun p r => fst r = fst p
                      /\ Forall2 (fun s x => x = set_uri s (song_uri x))
                                 (snd p) (snd r))
          (to_search [("Rock", [garbage_song])])
          [("Rock", [set_uri garbage_song Null])]
  /\ Forall (fun r => Forall (fun x => has_uri (song_uri x) = true) (snd r))
            [("Rock", [set_uri garbage_song Null])]
  /\ Forall2 (fun r m => fst m = fst r
                         /\ snd m = filter uri_is_null (snd r))
             [("Rock", [set_uri garbage_song Null])]
             [("Rock", [set_uri garbage_song Null])].
Proof.
  apply (search_all_results unit (constant_search [karaoke_album_track])
           [("Rock", [garbage_song])] _ _ tt tt).
  reflexivity.
Defined.

(** An instance of X15: one song resolved, one marked as not found. *)
Lemma search_all_nothing_to_search_witness :
  search_all unit (constant_search [same_length_track])
    [("Rock", [set_uri sample_song (Uri "spotify:track:x");
               set_uri garbage_song Null])] tt
  = Ok ([], [], tt).
Proof.
  apply (proj2 (search_all_nothing_to_search unit
                  (constant_search [same_length_track]))).
  - discriminate.
  - repeat constructor.
Defined.

(** ** More on the re-matching of stale identifiers *)

Lemma opt_eqb_eq (a b : option string) : opt_eqb a b = true <-> a = b.
Proof.
  destruct a as [x|], b as [y|]; simpl; split; intro H;
    try discriminate; try reflexivity.
  - apply String.eqb_eq in H. now subst.
  - inversion H. apply String.eqb_refl.
Qed.

Lemma opt_in_In (x : option string) (l : list (option string)) :
  opt_in x l = true <-> In x l.
Proof.
  unfold opt_in. rewrite existsb_exists. split.
  - intros (y & Hin & H). apply opt_eqb_eq in H. now subst.
  - intro H. exists x. split; [exact H|]. now apply opt_eqb_eq.
Qed.

Lemma m3u_uris_In (x : string) (songs : list song) :
  In (Some x) (m3u_uris_of songs) <-> exists s, In s songs /\ song_uri s = Uri x.
Proof.
  unfold m3u_uris_of. rewrite in_map_iff. split.
  - intros (s & H & Hin). apply filter_In in Hin. destruct Hin as [Hin _].
    exists s. split; [exact Hin|]. destruct (song_uri s); simpl in H; congruence.
  - intros (s & Hin & H). exists s. rewrite H. split; [reflexivity|].
    apply filter_In. split; [exact Hin|]. now rewrite H.
Qed.

Lemma remote_uri_in_playlist (pl : remote_playlist) (t : remote_track) :
  In t (playlist_tracks pl) ->
  opt_in (Some (remote_uri t)) (spotify_uris_of pl) = true.
Proof.
  intro H. apply opt_in_In. unfold spotify_uris_of. apply in_or_app. left.
  apply in_map_iff. now exists t.
Qed.

Lemma rematch_some name title m3u_uris sg tracks sg' :
  rematch name title m3u_uris sg tracks = Some sg' ->
  exists t, In t tracks
            /\ all_words_in title (clean_title (remote_title t)) = true
            /\ opt_in (Some (remote_uri t)) m3u_uris = false
            /\ sg' = reassign name sg t.
Proof.
  induction tracks as [|t rest IH]; simpl; [discriminate|].
  match goal with |- context [if ?c then _ else _] => destruct c eqn:E end.
  - intro H. inversion H. exists t. apply andb_true_iff in E.
    destruct E as [E1 E2]. apply negb_true_iff in E2.
    split; [now left|auto].
  - intro H. destruct (IH H) as (t' & Hin & H'). exists t'. split; [now right|exact H'].
Qed.

Lemma rematch_none name title m3u_uris sg tracks :
  rematch name title m3u_uris sg tracks = None <->
  forall t, In t tracks ->
            all_words_in title (clean_title (remote_title t)) = true ->
            opt_in (Some (remote_uri t)) m3u_uris = true.
Proof.
  induction tracks as [|t rest IH]; simpl.
  - split; [intros _ t []|reflexivity].
  - destruct (all_words_in title (clean_title (remote_title t))) eqn:E1;
      destruct (opt_in (Some (remote_uri t)) m3u_uris) eqn:E2; simpl.
    + rewrite IH. split.
      * intros H t' [<-|Hin]; [auto|now apply H].
      * intros H t' Hin. apply H. now right.
    + split; [discriminate|]. intro H. specialize (H t (or_introl eq_refl) E1).
      congruence.
    + rewrite IH. split.
      * intros H t' [<-|Hin]; [congruence|now apply H].
      * intros H t' Hin. apply H. now right.
    + rewrite IH. split.
      * intros H t' [<-|Hin]; [congruence|now apply H].
      * intros H t' Hin. apply H. now right.
Qed.

Lemma update_songs_spec name pl m3u_uris songs :
  update_songs name pl m3u_uris songs
  = (map (fun s => match rematched name pl m3u_uris s with
                   | Some s' => s'
                   | None => s
                   end) songs,
     flat_map (fun s => match rematched name pl m3u_uris s with
                        | Some s' => [s']
                        | None => []
                        end) songs).
Proof.
  induction songs as [|s rest IH]; [reflexivity|].
  simpl update_songs. rewrite IH. cbn [map flat_map]. unfold rematched, stale.
  destruct (has_uri (song_uri s)
            && negb (opt_in (uri_get (song_uri s)) (spotify_uris_of pl)));
    [|reflexivity].
  simpl.
  destruct (rematch name (clean_title (song_title s)) m3u_uris s (playlist_tracks pl));
    reflexivity.
Qed.

Lemma rematched_some name pl m3u_uris s s' :
  rematched name pl m3u_uris s = Some s' ->
  stale pl s = true
  /\ exists t, In t (playlist_tracks pl)
               /\ all_words_in (clean_title (song_title s))
                               (clean_title (remote_title t)) = true
               /\ opt_in (Some (remote_uri t)) m3u_uris = false
               /\ s' = reassign name s t.
Proof.
  unfold rematched. destruct (stale pl s); [|discriminate].
  intro H. split; [reflexivity|]. now apply rematch_some in H.
Qed.

Lemma reassign_not_stale name pl s t :
  In t (playlist_tracks pl) -> stale pl (reassign name s t) = false.
Proof.
  intro H. unfold stale. simpl. now rewrite (remote_uri_in_playlist pl t H).
Qed.

Lemma reassign_same_tags name s t : same_tags s (reassign name s t).
Proof. repeat split. Qed.

Lemma same_tags_refl s : same_tags s s.
Proof. repeat split. Qed.

Lemma update_uris_loop_spec m3u spotify :
  update_uris_loop m3u spotify
  = (map (fun p => fst (rematch_playlist spotify p)) m3u,
     flat_map (fun p => snd (rematch_playlist spotify p)) m3u).
Proof.
  induction m3u as [|[name songs] rest IH]; [reflexivity|].
  simpl update_uris_loop. rewrite IH. cbn [map flat_map].
  set (others := map _ rest). set (more := flat_map _ rest).
  unfold rematch_playlist. cbn [fst snd].
  destruct (lookup name spotify) as [pl|]; [|reflexivity].
  now rewrite update_songs_spec.
Qed.

Lemma update_uris_ok m3u spotify m3u' updated :
  update_uris m3u spotify = Ok (m3u', updated) ->
  m3u' = map (fun p => fst (rematch_playlist spotify p)) m3u
  /\ updated = flat_map (fun p => snd (rematch_playlist spotify p)) m3u.
Proof.
  unfold update_uris. destruct (is_empty spotify); [discriminate|].
  rewrite update_uris_loop_spec. intro H. inversion H. auto.
Qed.

Lemma map_fixed {A : Type} (f : A -> A) (l : list A) :
  (forall x, In x l -> f x = x) -> map f l = l.
Proof.
  induction l as [|a l IH]; intro H; simpl; [reflexivity|].
  rewrite H by now left. rewrite IH; [reflexivity|].
  intros x Hx. apply H. now right.
Qed.

Lemma flat_map_nil {A B : Type} (f : A -> list B) (l : list A) :
  (forall x, In x l -> f x = []) -> flat_map f l = [].
Proof.
  induction l as [|a l IH]; intro H; simpl; [reflexivity|].
  rewrite H by now left. apply IH. intros x Hx. apply H. now right.
Qed.

Lemma rematch_playlist_settled spotify (p : string * list song) :
  (forall pl s, lookup (fst p) spotify = Some pl -> In s (snd p) ->
                rematched (fst p) pl (m3u_uris_of (snd p)) s = None) ->
  rematch_playlist spotify p = (p, []).
Proof.
  intro H. unfold rematch_playlist.
  destruct (lookup (fst p) spotify) as [pl|]; [|reflexivity].
  rewrite map_fixed, flat_map_nil.
  - now destruct p.
  - intros s Hs. now rewrite (H pl s eq_refl Hs).
  - intros s Hs. now rewrite (H pl s eq_refl Hs).
Qed.

(** X16. [update_uris] keeps the playlists, their order, and the songs of
    each playlist with their position, title, artist, album, year and
    length: it only writes the keys ['uri'], ['old_uri'] and
    ['playlist']. *)
Theorem update_uris_keeps_tags :
  forall (m3u m3u' : list (string * list song))
         (spotify : list (string * remote_playlist)) (updated : list song),
    update_uris m3u spotify = Ok (m3u', updated) ->
    Forall2 (fun p p' => fst p' = fst p /\ Forall2 same_tags (snd p) (snd p'))
            m3u m3u'.
Proof.
  intros m3u m3u' spotify updated H.
  apply update_uris_ok in H. destruct H as [-> _].
  induction m3u as [|p rest IH]; simpl; constructor; [|exact IH].
  unfold rematch_playlist. destruct (lookup (fst p) spotify) as [pl|]; simpl.
  - split; [reflexivity|]. generalize (m3u_uris_of (snd p)) as U. intro U.
    induction (snd p) as [|s l IHl]; simpl; constructor.
    + destruct (rematched (fst p) pl U s) as [s'|] eqn:E.
      * apply rematched_some in E. destruct E as (_ & t & _ & _ & _ & ->).
        apply reassign_same_tags.
      * apply same_tags_refl.
    + exact IHl.
  - split; [reflexivity|]. induction (snd p); constructor;
      [apply same_tags_refl|assumption].
Qed.

Lemma update_uris_updated_inv :
  forall (m3u m3u' : list (string * list song))
         (spotify : list (string * remote_playlist)) (updated : list song),
    update_uris m3u spotify = Ok (m3u', updated) ->
    Forall (fun s' =>
              exists name songs pl s t,
                In (name, songs) m3u /\ lookup name spotify = Some pl
                /\ In s songs /\ stale pl s = true
                /\ In t (playlist_tracks pl)
                /\ all_words_in (clean_title (song_title s))
                                (clean_title (remote_title t)) = true
                /\ opt_in (Some (remote_uri t)) (m3u_uris_of songs) = false
                /\ s' = reassign name s t)
           updated.
Proof.
  intros m3u m3u' spotify updated H.
  apply update_uris_ok in H. destruct H as [_ ->].
  apply Forall_forall. intros s' Hin.
  apply in_flat_map in Hin. destruct Hin as ([name songs] & Hp & Hin).
  unfold rematch_playlist in Hin. cbn [fst snd] in Hin.
  destruct (lookup name spotify) as [pl|] eqn:El; [|destruct Hin].
  cbn [snd] in Hin. apply in_flat_map in Hin. destruct Hin as (s & Hs & Hin).
  destruct (rematched name pl (m3u_uris_of songs) s) as [r|] eqn:E; [|destruct Hin].
  destruct Hin as [<-|[]].
  apply rematched_some in E. destruct E as (Hst & t & Ht & Hw & Hu & ->).
  exists name, songs, pl, s, t. auto 10.
Qed.

(** X17. Every song that [update_uris] reports as updated was a song of a
    playlist present on both sides, held a uri that the remote playlist
    does not list, and now holds the uri of a track of that remote
    playlist whose title contains every word of the song's title key and
    whose uri no song of the local playlist held when the call began;
    its old uri is recorded and the playlist name written. *)
Theorem update_uris_updated_songs :
  forall (m3u m3u' : list (string * list song))
         (spotify : list (string * remote_playlist)) (updated : list song),
    update_uris m3u spotify = Ok (m3u', updated) ->
    Forall (fun s' =>
              exists name songs pl s t,
                In (name, songs) m3u /\ lookup name spotify = Some pl
                /\ In s songs /\ stale pl s = true
                /\ In t (playlist_tracks pl)
                /\ all_words_in (clean_title (song_title s))
                                (clean_title (remote_title t)) = true
                /\ opt_in (Some (remote_uri t)) (m3u_uris_of songs) = false
                /\ s' = reassign name s t)
           updated.
Proof. exact update_uris_updated_inv. Qed.

(** X18. [update_uris] raises [ValueError] when there is no remote
    playlist at all; and when no song of a playlist present on both sides
    holds a uri that its remote playlist does not list, it returns the
    local playlists as they were and reports no update. *)
Theorem update_uris_nothing_stale :
  (forall m3u, update_uris m3u [] = Raise ValueError)
  /\ (forall (m3u : list (string * list song))
             (spotify : list (string * remote_playlist)),
         spotify <> [] ->
         (forall name songs pl,
             In (name, songs) m3u -> lookup name spotify = Some pl ->
             Forall (fun s => stale pl s = false) songs) ->
         update_uris m3u spotify = Ok (m3u, [])).
Proof.
  split; [reflexivity|]. intros m3u spotify Hne H. unfold update_uris.
  destruct spotify as [|x spotify']; [contradiction|]. simpl is_empty. cbv iota.
  rewrite update_uris_loop_spec. f_equal.
  assert (E : forall p, In p m3u -> rematch_playlist (x :: spotify') p = (p, [])).
  { intros [name songs] Hp. apply rematch_playlist_settled. cbn [fst snd].
    intros pl s Hl Hs. unfold rematched.
    specialize (H name songs pl Hp Hl). rewrite Forall_forall in H.
    now rewrite (H s Hs). }
  rewrite map_fixed, flat_map_nil; [reflexivity| |].
  - intros p Hp. now rewrite (E p Hp).
  - intros p Hp. now rewrite (E p Hp).
Qed.

(** X19. Running [update_uris] a second time on its own output changes
    nothing: the playlists come back as they are and no update is
    reported. *)
Theorem update_uris_twice :
  forall (m3u m3u' : list (string * list song))
         (spotify : list (string * remote_playlist)) (updated : list song),
    update_uris m3u spotify = Ok (m3u', updated) ->
    update_uris m3u' spotify = Ok (m3u', []).
Proof.
  intros m3u m3u' spotify updated H.
  pose proof (update_uris_ok _ _ _ _ H) as [-> _].
  unfold update_uris in *. destruct (is_empty spotify); [discriminate|].
  rewrite update_uris_loop_spec. f_equal.
  assert (E : forall p, rematch_playlist spotify (fst (rematch_playlist spotify p))
                        = (fst (rematch_playlist spotify p), [])).
  { intros [name songs]. apply rematch_playlist_settled.
    unfold rematch_playlist at 1 2 3 4. cbn [fst snd].
    destruct (lookup name spotify) as [pl|] eqn:El; cbn [fst snd];
      [|intros pl s Hl; congruence].
    intros pl' s' Hl Hs'. rewrite El in Hl. inversion Hl; subst pl'.
    set (U := m3u_uris_of songs) in *.
    set (f := fun s => match rematched name pl U s with
                       | Some s' => s'
                       | None => s
                       end) in *.
    apply in_map_iff in Hs'. destruct Hs' as (s & <- & Hs).
    unfold f at 2. destruct (rematched name pl U s) as [r|] eqn:Er.
    - apply rematched_some in Er. destruct Er as (_ & t & Ht & _ & _ & ->).
      unfold rematched. now rewrite (reassign_not_stale name pl s t Ht).
    - unfold rematched in *. destruct (stale pl s); [|reflexivity].
      apply rematch_none. intros t Ht Hw.
      pose proof (proj1 (rematch_none _ _ _ _ _) Er t Ht Hw) as Hu.
      apply opt_in_In in Hu. apply m3u_uris_In in Hu.
      destruct Hu as (s0 & Hs0 & Hu0).
      apply opt_in_In. apply m3u_uris_In. exists (f s0).
      split; [now apply in_map|].
      unfold f, rematched, stale. rewrite Hu0. simpl.
      now rewrite (remote_uri_in_playlist pl t Ht). }
  rewrite map_map.
  rewrite (map_ext _ (fun p => fst (rematch_playlist spotify p)))
    by (intro p; now rewrite E).
  rewrite flat_map_nil; [reflexivity|].
  intros p Hp. apply in_map_iff in Hp. destruct Hp as (q & <- & _). now rewrite E.
Qed.

(** An instance of X16 on the two stale songs. *)
Lemma update_uris_keeps_tags_witness :
  Forall2 (fun p p' => fst p' = fst p /\ Forall2 same_tags (snd p) (snd p'))
          stale_local
          (fst (update_uris_loop stale_local fresh_remote)).
Proof.
  apply (update_uris_keeps_tags stale_local _ fresh_remote
           (snd (update_uris_loop stale_local fresh_remote))).
  reflexivity.
Defined.

(** An instance of X17 on the two stale songs. *)
Lemma update_uris_updated_songs_witness :
  Forall (fun s' =>
            exists name songs pl s t,
              In (name, songs) stale_local /\ lookup name fresh_remote = Some pl
              /\ In s songs /\ stale pl s = true
              /\ In t (playlist_tracks pl)
              /\ all_words_in (clean_title (song_title s))
                              (clean_title (remote_title t)) = true
              /\ opt_in (Some (remote_uri t)) (m3u_uris_of songs) = false
              /\ s' = reassign name s t)
         (snd (update_uris_loop stale_local fresh_remote)).
Proof.
  apply (update_uris_updated_songs stale_local
           (fst (update_uris_loop stale_local fresh_remote)) fresh_remote).
  reflexivity.
Defined.

(** An instance of X18: one song in step with the remote playlist, one
    never searched, and a playlist that exists only locally. *)
Lemma update_uris_nothing_stale_witness :
  update_uris synced_local fresh_remote = Ok (synced_local, []).
Proof.
  apply (proj2 update_uris_nothing_stale synced_local fresh_remote).
  - discriminate.
  - intros name songs pl [H|[H|[]]] Hl; inversion H; subst.
    + inversion Hl; subst. repeat constructor.
    + discriminate Hl.
Defined.

(** An instance of X19 on the two stale songs. *)
Lemma update_uris_twice_witness :
  update_uris (fst (update_uris_loop stale_local fresh_remote)) fresh_remote
  = Ok (fst (update_uris_loop stale_local fresh_remote), []).
Proof.
  apply (update_uris_twice stale_local _ fresh_remote
           (snd (update_uris_loop stale_local fresh_remote))).
  reflexivity.
Defined.

(** ** More on the playlist update *)

Lemma uris_where_In (keep : song -> bool) (songs : list song) (x : string) :
  In x (uris_where keep songs)
  <-> exists s, In s songs /\ keep s = true /\ song_uri s = Uri x.
Proof.
  unfold uris_where. rewrite in_flat_map. split.
  - intros (s & Hs & H). exists s. split; [exact Hs|].
    destruct (keep s); [|destruct H]. split; [reflexivity|].
    destruct (song_uri s); simpl in H; try destruct H as [H|[]]; try destruct H.
    now subst.
  - intros (s & Hs & Hk & Hu). exists s. split; [exact Hs|].
    rewrite Hk, Hu. simpl. now left.
Qed.

Lemma spotify_uris_In (pl : remote_playlist) (x : string) :
  opt_in (Some x) (spotify_uris_of pl) = true
  <-> In x (map remote_uri (playlist_tracks pl)).
Proof.
  rewrite opt_in_In. unfold spotify_uris_of. rewrite in_app_iff, !in_map_iff.
  split.
  - intros [(t & H & Ht) | [H|[]]]; [|discriminate].
    exists t. split; [congruence|exact Ht].
  - intros (t & H & Ht). left. exists t. split; [congruence|exact Ht].
Qed.

Section MoreWriterFacts.

Variable create_playlist : string -> string.

Lemma update_one_inv spotify limit name songs u :
  update_one create_playlist spotify limit name songs = Ok u ->
  update_of create_playlist spotify limit (name, songs) u.
Proof.
  unfold update_one, update_of. cbn [fst snd].
  destruct (lookup name spotify) as [pl|];
    (destruct (Nat.eqb_spec limit 0) as [|Hl]; [discriminate|]);
    intro H; inversion H; cbn; (split; [reflexivity|]); (split; [exact Hl|]);
    (split; [reflexivity|]); (split; [reflexivity|]); (split; [reflexivity|]);
    intro x; rewrite uris_where_In.
  - split.
    + intros (s & Hs & Hk & Hu). rewrite Hu in Hk. simpl in Hk.
      apply negb_true_iff in Hk. split; [now exists s|].
      intro Hc. apply spotify_uris_In in Hc. congruence.
    + intros ((s & Hs & Hu) & Hn). exists s. split; [exact Hs|].
      split; [|exact Hu]. rewrite Hu. simpl. apply negb_true_iff.
      destruct (opt_in (Some x) (spotify_uris_of pl)) eqn:E; [|reflexivity].
      apply spotify_uris_In in E. contradiction.
  - split.
    + intros (s & Hs & _ & Hu). now exists s.
    + intros (s & Hs & Hu). exists s. split; [exact Hs|].
      split; [|exact Hu]. now rewrite Hu.
Qed.

Lemma update_playlist_loop_inv spotify limit items us :
  update_playlist_loop create_playlist items spotify limit = Ok us ->
  Forall2 (update_of create_playlist spotify limit) items us.
Proof.
  revert us. induction items as [|[name songs] rest IH]; intros us; simpl.
  - intro H. inversion H. constructor.
  - destruct (update_one create_playlist spotify limit name songs) as [u|e] eqn:E;
      simpl; [|discriminate].
    destruct (update_playlist_loop create_playlist rest spotify limit) as [us'|e];
      simpl; [|discriminate].
    intro H. inversion H. constructor; [now apply update_one_inv|now apply IH].
Qed.

(** X20. For each local playlist, taken in reverse order,
    [update_playlist] writes to the url of the remote playlist of that
    name the uris held by songs of the local playlist that the remote
    playlist does not list; when there is no remote playlist of that name
    it creates one and writes every uri held by a song. A song without
    uri, or with uri [None], adds nothing. *)
Theorem update_playlist_adds :
  forall (m3u : list (string * list song))
         (spotify : list (string * remote_playlist)) (limit : nat)
         (us : list playlist_update),
    update_playlist create_playlist m3u spotify limit = Ok us ->
    Forall2 (update_of create_playlist spotify limit) (rev m3u) us.
Proof.
  intros m3u spotify limit us. unfold update_playlist.
  destruct (is_empty spotify); [discriminate|]. apply update_playlist_loop_inv.
Qed.

Lemma chunks_length (limit : nat) (uri_list : list string) :
  List.length (chunks limit uri_list) = (List.length uri_list / limit + 1)%nat.
Proof. unfold chunks. now rewrite length_map, length_seq. Qed.

Lemma chunks_last (limit : nat) (uri_list d : list string) :
  limit <> 0%nat -> (List.length uri_list mod limit = 0)%nat ->
  last (chunks limit uri_list) d = [].
Proof.
  intros Hl Hm. unfold chunks. rewrite Nat.add_1_r, seq_S, map_app. simpl.
  rewrite last_last. unfold Py.slice.
  apply Nat.Div0.div_exact in Hm. rewrite <- Hm.
  rewrite skipn_all. now destruct (limit * _ - _)%nat.
Qed.

(** X21. Every playlist update sends [len(uri_list) // limit + 1] POSTs,
    so at least one: when the number of uris is a multiple of the limit,
    in particular when there is nothing to add, the last POST carries an
    empty ['uris'] parameter. *)
Theorem update_playlist_post_count :
  forall (m3u : list (string * list song))
         (spotify : list (string * remote_playlist)) (limit : nat)
         (us : list playlist_update),
    update_playlist create_playlist m3u spotify limit = Ok us ->
    Forall (fun u =>
              List.length (update_posts u)
              = (List.length (update_uri_list u) / limit + 1)%nat
              /\ ((List.length (update_uri_list u) mod limit = 0)%nat ->
                  last (update_posts u) "none" = "")
              /\ (update_uri_list u = [] -> update_posts u = [""]))
           us.
Proof.
  intros m3u spotify limit us H.
  unfold update_playlist in H. destruct (is_empty spotify); [discriminate|].
  apply update_playlist_loop_inv in H.
  induction H as [|p u ps us' Hu _ IH]; constructor; [|exact IH].
  destruct Hu as (_ & Hl & Hp & _). rewrite Hp.
  split; [now rewrite length_map, chunks_length|]. split.
  - intro Hm.
    assert (Hlm : forall cs, last (map (Py.join ",") cs) "none"
                             = Py.join "," (last cs ["none"])).
    { induction cs as [|c cs IHc]; [reflexivity|].
      destruct cs; [reflexivity|exact IHc]. }
    now rewrite Hlm, (chunks_last limit (update_uri_list u) ["none"] Hl Hm).
  - intros ->. unfold chunks. simpl List.length. rewrite Nat.Div0.div_0_l.
    cbn [seq Nat.add map]. unfold Py.slice. rewrite skipn_nil, firstn_nil.
    reflexivity.
Qed.

Lemma update_playlist_loop_div0 spotify p rest :
  update_playlist_loop create_playlist (p :: rest) spotify 0
  = Raise ZeroDivisionError.
Proof.
  destruct p as [name songs]. simpl. unfold update_one.
  now destruct (lookup name spotify).
Qed.

(** X22. The errors of [update_playlist]: [ValueError] when there is no
    remote playlist at all, whatever the local playlists; and with a
    limit of 0, [ZeroDivisionError] as soon as there is a local playlist
    to act on. *)
Theorem update_playlist_errors :
  (forall m3u limit,
      update_playlist create_playlist m3u [] limit = Raise ValueError)
  /\ (forall m3u spotify,
         m3u <> [] -> spotify <> [] ->
         update_playlist create_playlist m3u spotify 0 = Raise ZeroDivisionError).
Proof.
  split; [reflexivity|]. intros m3u spotify Hm Hs. unfold update_playlist.
  destruct spotify; [contradiction|]. simpl is_empty. cbv iota.
  destruct (rev m3u) as [|q rest] eqn:E.
  - apply (f_equal (@rev _)) in E. rewrite rev_involutive in E. contradiction.
  - apply update_playlist_loop_div0.
Qed.

End MoreWriterFacts.

(** An instance of X20: one playlist to update, one to create. *)
Lemma update_playlist_adds_witness :
  exists us,
    update_playlist new_url synced_local fresh_remote default_limit = Ok us
    /\ Forall2 (update_of new_url fresh_remote default_limit) (rev synced_local) us.
Proof.
  eexists. split; [reflexivity|].
  apply (update_playlist_adds new_url synced_local fresh_remote default_limit).
  reflexivity.
Defined.

(** An instance of X21: nothing to add, and still one POST each. *)
Lemma update_playlist_post_count_witness :
  exists us,
    update_playlist new_url sample_local_two sample_remote default_limit = Ok us
    /\ Forall (fun u =>
                 List.length (update_posts u)
                 = (List.length (update_uri_list u) / default_limit + 1)%nat
                 /\ ((List.length (update_uri_list u) mod default_limit = 0)%nat ->
                     last (update_posts u) "none" = "")
                 /\ (update_uri_list u = [] -> update_posts u = [""]))
              us.
Proof.
  eexists. split; [reflexivity|].
  apply (update_playlist_post_count new_url sample_local_two sample_remote
           default_limit).
  reflexivity.
Defined.

(** An instance of X22. *)
Lemma update_playlist_errors_witness :
  update_playlist new_url sample_local_two sample_remote 0
  = Raise ZeroDivisionError.
Proof.
  apply (proj2 (update_playlist_errors new_url)); discriminate.
Defined.

(** ** The ['uris'] parameter *)

Lemma contains_comma_head (c : ascii) (s : string) :
  Py.contains "," (String c s) = false ->
  Ascii.eqb c "," = false /\ Py.contains "," s = false.
Proof.
  intro H. apply contains_tail in H. destruct H as [H1 H2]. split; [|exact H2].
  cbn [Py.startswith] in H1.
  replace (Py.startswith "" s) with true in H1 by (now destruct s).
  rewrite andb_true_r in H1. now rewrite Ascii.eqb_sym.
Qed.

Lemma split_char_no_sep (s : string) :
  Py.contains "," s = false -> Py.split_char "," s = [s].
Proof.
  induction s as [|c s IH]; [reflexivity|]. intro H.
  apply contains_comma_head in H. destruct H as [Hc Hs].
  simpl. rewrite Hc, (IH Hs). reflexivity.
Qed.

Lemma split_char_app (s rest : string) :
  Py.contains "," s = false ->
  Py.split_char "," (s ++ "," ++ rest) = s :: Py.split_char "," rest.
Proof.
  induction s as [|c s IH]; intro H.
  - reflexivity.
  - apply contains_comma_head in H. destruct H as [Hc Hs].
    simpl. rewrite Hc. simpl in IH. now rewrite (IH Hs).
Qed.

(** X23. The ['uris'] parameter of a POST is read back, by splitting at
    the commas, as the chunk it was joined from, provided the chunk is
    not empty and no uri holds a comma; the empty chunk is read back as
    one empty uri. *)
Theorem join_split_round_trip :
  (forall chunk : list string,
      chunk <> [] ->
      Forall (fun u => Py.contains "," u = false) chunk ->
      Py.split_char "," (Py.join "," chunk) = chunk)
  /\ Py.split_char "," (Py.join "," []) = [""].
Proof.
  split; [|reflexivity]. intros chunk Hne H.
  induction H as [|u rest Hu Hrest IH]; [contradiction|].
  destruct rest as [|v rest'].
  - simpl. now apply split_char_no_sep.
  - change (Py.join "," (u :: v :: rest'))
      with (u ++ "," ++ Py.join "," (v :: rest')).
    rewrite split_char_app by exact Hu.
    rewrite IH by discriminate. reflexivity.
Qed.

(** An instance of X23. *)
Lemma join_split_round_trip_witness :
  Py.split_char "," (Py.join "," ["spotify:track:a"; "spotify:track:b"])
  = ["spotify:track:a"; "spotify:track:b"].
Proof.
  apply (proj1 join_split_round_trip).
  - discriminate.
  - repeat constructor.
Defined.

(** ** Reading the remote playlists *)

Lemma lookup_dict_set_same {A : Type} (name : string) (v : A) d :
  lookup name (dict_set name v d) = Some v.
Proof.
  induction d as [|[k x] rest IH]; simpl.
  - now rewrite String.eqb_refl.
  - destruct (String.eqb name k) eqn:E; simpl; now rewrite E.
Qed.

Lemma lookup_dict_set_other {A : Type} (name key : string) (v : A) d :
  String.eqb name key = false ->
  lookup name (dict_set key v d) = lookup name d.
Proof.
  intro Hn. induction d as [|[k x] rest IH]; simpl.
  - now rewrite Hn.
  - destruct (String.eqb key k) eqn:E; simpl.
    + apply String.eqb_eq in E. subst k. now rewrite Hn.
    + now rewrite IH.
Qed.

Lemma dict_set_keys {A : Type} (key : string) (v : A) d :
  map fst (dict_set key v d)
  = if existsb (String.eqb key) (map fst d) then map fst d
    else (map fst d ++ [key])%list.
Proof.
  induction d as [|[k x] rest IH]; simpl; [reflexivity|].
  destruct (String.eqb key k); simpl; [reflexivity|].
  rewrite IH. now destruct (existsb (String.eqb key) (map fst rest)).
Qed.

Lemma dict_set_NoDup {A : Type} (key : string) (v : A) d :
  NoDup (map fst d) -> NoDup (map fst (dict_set key v d)).
Proof.
  intro H. rewrite dict_set_keys.
  destruct (existsb (String.eqb key) (map fst d)) eqn:E; [exact H|].
  apply NoDup_app; [exact H|repeat constructor; intros []|].
  intros k Hk [Hc|[]]. subst k.
  assert (Ht : existsb (String.eqb key) (map fst d) = true).
  { apply existsb_exists. exists key. split; [exact Hk|apply String.eqb_refl]. }
  congruence.
Qed.

Lemma dict_set_not_empty {A : Type} (key : string) (v : A) d :
  dict_set key v d <> [].
Proof. destruct d as [|[k x] rest]; simpl; [|destruct (String.eqb key k)]; discriminate. Qed.

Lemma collect_playlists_spec (names : list string) (listing : list api_playlist) :
  forall d out,
    collect_playlists names listing d = Ok out ->
    (NoDup (map fst d) -> NoDup (map fst out))
    /\ (d <> [] -> out <> [])
    /\ forall name,
         match (if existsb (String.eqb name) names
                then last_named name listing else None) with
         | Some playlist => exists v, lookup name out = Some v /\ stored playlist v
         | None => lookup name out = lookup name d
         end.
Proof.
  induction listing as [|p rest IH]; intros d out; simpl.
  - intro H. inversion H; subst. split; [auto|]. split; [auto|].
    intro name. now destruct (existsb (String.eqb name) names).
  - destruct (existsb (String.eqb (api_name p)) names) eqn:Ew.
    + destruct (pages_metadata (api_track_pages p)) as [tracks|e] eqn:Et; simpl;
        [|discriminate].
      intro H. destruct (IH _ _ H) as (I1 & I2 & I3).
      split; [intro Hd; now apply I1, dict_set_NoDup|].
      split; [intros _; apply I2, dict_set_not_empty|].
      intro name. specialize (I3 name).
      destruct (existsb (String.eqb name) names) eqn:En.
      * destruct (last_named name rest) as [q|]; [exact I3|].
        destruct (String.eqb name (api_name p)) eqn:E.
        -- apply String.eqb_eq in E. subst name.
           rewrite lookup_dict_set_same in I3.
           exists (api_href p, tracks). split; [exact I3|now split].
        -- now rewrite lookup_dict_set_other in I3.
      * rewrite I3. apply lookup_dict_set_other.
        destruct (String.eqb name (api_name p)) eqn:E; [|reflexivity].
        apply String.eqb_eq in E. subst name. congruence.
    + intro H. destruct (IH _ _ H) as (I1 & I2 & I3).
      split; [exact I1|]. split; [exact I2|].
      intro name. specialize (I3 name).
      destruct (existsb (String.eqb name) names) eqn:En; [|exact I3].
      destruct (last_named name rest) as [q|]; [exact I3|].
      destruct (String.eqb name (api_name p)) eqn:E; [|exact I3].
      apply String.eqb_eq in E. subst name. congruence.
Qed.

(** X24. What [get_spotify_metadata] returns: a mapping that is never
    empty, with distinct keys, that holds under a name exactly when the
    name was asked for and a listed playlist has it; the url and tracks
    stored are those of the last listed playlist of that name. *)
Theorem get_spotify_metadata_result :
  forall (playlist_names : list string) (pages : list (list api_playlist))
         (playlists : list (string * (string * list track_metadata))),
    get_spotify_metadata playlist_names pages = Ok playlists ->
    playlists <> []
    /\ NoDup (map fst playlists)
    /\ forall name,
         match (if existsb (String.eqb name) playlist_names
                then last_named name (concat pages) else None) with
         | Some playlist =>
             exists v, lookup name playlists = Some v /\ stored playlist v
         | None => lookup name playlists = None
         end.
Proof.
  intros names pages playlists. unfold get_spotify_metadata.
  destruct (collect_playlists names (concat pages) []) as [out|e] eqn:E; simpl;
    [|discriminate].
  destruct out as [|x out']; simpl; [discriminate|].
  intro H. inversion H; subst.
  destruct (collect_playlists_spec _ _ _ _ E) as (H1 & _ & H3).
  split; [discriminate|]. split; [apply H1; constructor|exact H3].
Qed.

Lemma collect_playlists_unwanted (names : list string) (listing : list api_playlist) d :
  Forall (fun p => existsb (String.eqb (api_name p)) names = false) listing ->
  collect_playlists names listing d = Ok d.
Proof.
  induction 1 as [|p rest Hp _ IH]; simpl; [reflexivity|]. now rewrite Hp.
Qed.

(** X25. [get_spotify_metadata] raises [ValueError] when none of the
    listed playlists has a name that was asked for, in particular when
    the user has no playlist. *)
Theorem get_spotify_metadata_nothing_found :
  forall (playlist_names : list string) (pages : list (list api_playlist)),
    Forall (fun p => existsb (String.eqb (api_name p)) playlist_names = false)
           (concat pages) ->
    get_spotify_metadata playlist_names pages = Raise ValueError.
Proof.
  intros names pages H. unfold get_spotify_metadata.
  now rewrite collect_playlists_unwanted.
Qed.

Lemma page_metadata_spec (items : list api_track) :
  forall (i : nat) (ms : list track_metadata),
    page_metadata i items = Ok ms ->
    map meta_position ms = seq i (List.length items)
    /\ Forall2 (fun t m => meta_uri m = track_uri (api_core t)
                           /\ meta_title m = track_name (api_core t)
                           /\ release_year (api_core t) = Ok (meta_year m))
               items ms.
Proof.
  induction items as [|t rest IH]; intros i ms; simpl.
  - intro H. inversion H. split; [reflexivity|constructor].
  - unfold get_track_metadata.
    destruct (release_year (api_core t)) as [y|e] eqn:Ey; simpl; [|discriminate].
    destruct (page_metadata (S i) rest) as [ms'|e] eqn:E; simpl; [|discriminate].
    intro H. inversion H; subst. destruct (IH _ _ E) as [I1 I2].
    simpl. rewrite I1. split; [reflexivity|].
    constructor; [|exact I2]. simpl. auto.
Qed.

(** X26. The tracks read for a remote playlist are those of its pages, in
    order, none dropped, each with the uri and title of its track object
    and the year of its release date; the position stored with a track
    is its index within its own page, so positions start again at 0 on
    every page. *)
Theorem pages_metadata_positions :
  forall (pages : list (list api_track)) (ms : list track_metadata),
    pages_metadata pages = Ok ms ->
    map meta_position ms
    = concat (map (fun page => seq 0 (List.length page)) pages)
    /\ Forall2 (fun t m => meta_uri m = track_uri (api_core t)
                           /\ meta_title m = track_name (api_core t)
                           /\ release_year (api_core t) = Ok (meta_year m))
               (concat pages) ms.
Proof.
  induction pages as [|page rest IH]; intros ms; simpl.
  - intro H. inversion H. split; [reflexivity|constructor].
  - destruct (page_metadata 0 page) as [m1|e] eqn:E1; simpl; [|discriminate].
    destruct (pages_metadata rest) as [m2|e] eqn:E2; simpl; [|discriminate].
    intro H. inversion H; subst.
    destruct (page_metadata_spec _ _ _ E1) as [P1 P2].
    destruct (IH _ eq_refl) as [I1 I2].
    rewrite map_app, P1, I1. split; [reflexivity|].
    now apply Forall2_app.
Qed.

Section ReadThenWrite.

Variable create_playlist : string -> string.

(** X27. On the mapping that [get_spotify_metadata] returns, neither
    [update_uris] nor, with a limit other than 0, [update_playlist]
    raises. *)
Theorem metadata_then_update :
  forall (playlist_names : list string) (pages : list (list api_playlist))
         (playlists : list (string * (string * list track_metadata)))
         (m3u : list (string * list song)) (limit : nat),
    get_spotify_metadata playlist_names pages = Ok playlists ->
    limit <> 0%nat ->
    (exists m3u' updated,
        update_uris m3u (as_remote playlists) = Ok (m3u', updated))
    /\ exists us,
        update_playlist create_playlist m3u (as_remote playlists) limit = Ok us.
Proof.
  intros names pages playlists m3u limit H Hl.
  unfold get_spotify_metadata in H.
  destruct (collect_playlists names (concat pages) []) as [out|e]; simpl in H;
    [|discriminate].
  destruct out as [|x out']; simpl in H; [discriminate|].
  inversion H; subst. split.
  - unfold update_uris. simpl is_empty. cbv iota.
    destruct (update_uris_loop m3u (as_remote (x :: out'))) as [a b].
    now exists a, b.
  - destruct (update_playlist_ok create_playlist m3u (as_remote (x :: out')) limit)
      as (us & E & _); [discriminate|exact Hl|]. now exists us.
Qed.

(** X28. A song that [update_uris] has re-matched in a playlist is not
    added to that playlist by a following [update_playlist]: its new uri
    is not among the uris written for the playlist. *)
Theorem rematched_not_added :
  forall (m3u m3u' : list (string * list song))
         (spotify : list (string * remote_playlist)) (updated : list song)
         (limit : nat) (us : list playlist_update)
         (s' : song) (u : playlist_update) (x : string),
    update_uris m3u spotify = Ok (m3u', updated) ->
    update_playlist create_playlist m3u' spotify limit = Ok us ->
    In s' updated -> In u us ->
    song_playlist s' = Some (update_name u) ->
    song_uri s' = Uri x ->
    ~ In x (update_uri_list u).
Proof.
  intros m3u m3u' spotify updated limit us s' u x H1 H2 Hs Hu Hp Hx Hin.
  apply update_uris_updated_inv in H1. rewrite Forall_forall in H1.
  destruct (H1 s' Hs) as (name & songs & pl & s & t & _ & Hl & _ & _ & Ht & _ & _ & ->).
  simpl in Hp, Hx. inversion Hp; subst name. inversion Hx; subst x.
  unfold update_playlist in H2. destruct (is_empty spotify); [discriminate|].
  apply update_playlist_loop_inv in H2.
  assert (G : exists p, update_of create_playlist spotify limit p u).
  { clear -H2 Hu. induction H2 as [|p u' ps us' Hpu _ IH]; [destruct Hu|].
    destruct Hu as [<-|Hu]; [now exists p|now apply IH]. }
  destruct G as (p & Hn & _ & _ & G). rewrite <- Hn, Hl in G.
  destruct G as (_ & _ & G). apply G in Hin. destruct Hin as [_ Hin].
  apply Hin. apply in_map_iff. now exists t.
Qed.

End ReadThenWrite.

(** An instance of X24: "Rock" is listed twice, "Pop" was not asked for,
    "Jazz" is not listed. *)
Lemma get_spotify_metadata_result_witness :
  sample_metadata <> []
  /\ NoDup (map fst sample_metadata)
  /\ forall name,
       match (if existsb (String.eqb name) ["Rock"; "Jazz"]
              then last_named name (concat sample_listing) else None) with
       | Some playlist =>
           exists v, lookup name sample_metadata = Some v /\ stored playlist v
       | None => lookup name sample_metadata = None
       end.
Proof.
  apply (get_spotify_metadata_result ["Rock"; "Jazz"] sample_listing sample_metadata).
  reflexivity.
Defined.

Example sample_metadata_rock :
  map fst sample_metadata = ["Rock"]
  /\ option_map fst (lookup "Rock" sample_metadata)
     = Some "https://api.spotify.com/v1/playlists/1/tracks".
Proof. split; reflexivity. Qed.

(** An instance of X25. *)
Lemma get_spotify_metadata_nothing_found_witness :
  get_spotify_metadata ["Jazz"] sample_listing = Raise ValueError.
Proof.
  apply (get_spotify_metadata_nothing_found ["Jazz"] sample_listing).
  repeat constructor.
Defined.

(** An instance of X26: a page of two tracks and a page of one. *)
Lemma pages_metadata_positions_witness :
  map meta_position sample_rock_tracks
  = concat (map (fun page => seq 0 (List.length page))
                (api_track_pages sample_api_rock))
  /\ Forall2 (fun t m => meta_uri m = track_uri (api_core t)
                         /\ meta_title m = track_name (api_core t)
                         /\ release_year (api_core t) = Ok (meta_year m))
             (concat (api_track_pages sample_api_rock)) sample_rock_tracks.
Proof.
  apply (pages_metadata_positions (api_track_pages sample_api_rock)
           sample_rock_tracks).
  reflexivity.
Defined.

Example sample_rock_positions :
  map meta_position sample_rock_tracks = [0; 1; 0]%nat.
Proof. reflexivity. Qed.

(** An instance of X27. *)
Lemma metadata_then_update_witness :
  (exists m3u' updated,
      update_uris stale_local (as_remote sample_metadata) = Ok (m3u', updated))
  /\ exists us,
      update_playlist new_url stale_local (as_remote sample_metadata)
        default_limit = Ok us.
Proof.
  apply (metadata_then_update new_url ["Rock"; "Jazz"] sample_listing
           sample_metadata stale_local default_limit).
  - reflexivity.
  - discriminate.
Defined.

(** An instance of X28 on the two stale songs. *)
Lemma rematched_not_added_witness :
  Forall (fun u => update_name u = "Rock" ->
                   ~ In "spotify:track:new" (update_uri_list u))
         rematched_updates.
Proof.
  apply Forall_forall. intros u Hu Hn.
  apply (rematched_not_added new_url stale_local rematched_local fresh_remote
           (snd (update_uris_loop stale_local fresh_remote)) default_limit
           rematched_updates
           (reassign "Rock" (stale_song 0 "spotify:track:old1")
              {| remote_title := "Song"; remote_artist := "Artist A";
                 remote_album := "Album X"; remote_uri := "spotify:track:new" |})
           u "spotify:track:new").
  - reflexivity.
  - reflexivity.
  - left. reflexivity.
  - exact Hu.
  - simpl. now rewrite Hn.
  - reflexivity.
Defined.
